(** * A shallow embedding of the quadtree / octree of [octree/octree.h]

    The class template [Octree<PosType, DataType, DIM>] is embedded as pure
    functions over an immutable tree.

    - Coordinates.  [PosType] is a vector with indexed access, [+], [-] and
      division by an [int]; the demo instantiates it with [Eigen::Vector2d].
      Here a vector is a [list Q]: arithmetic on coordinates is exact.
    - Integers.  [1 << k] is an [int] expression (32 bits); its wrap-around is
      written out in [int_shl1].  Depths are [size_t]; a tree cannot hold the
      2^64 nested nodes it would take to wrap one, so they are [nat].
    - Pointers.  Every node is owned by exactly one parent slot, so a node and
      the subtree it owns are one value; [childs] is the array of [2^DIM]
      slots, [None] standing for [nullptr].  The in-place updates of [insert]
      become a rebuilt tree.
    - Recursion.  [insert], [find] and [traverse] recurse on the node pointer;
      the embedding counts nested activations with a fuel argument and
      answers [None] when the fuel is used up before the call returns. *)

From Stdlib Require Import ZArith QArith Lqa Lia Bool List.
From Stdlib Require Ascii String.
From Stdlib Require Import Permutation.
From stdpp Require Import base list.
Import ListNotations.

#[local] Set Warnings "-register-all".
#[local] Open Scope nat_scope.

(** ** Machine integers *)

(** [1 << k] on a 32-bit [int].  For [k < 31] this is [2^k]; [1 << 31] is
    [INT_MIN]; a count of 32 or more is outside the language and the value
    taken is the one the usual targets give, which use the low five bits of
    the count. *)
Definition int_shl1 (k : nat) : Z :=
  let r := Z.shiftl 1 (Z.of_nat k mod 32) in
  if (r <? 2 ^ 31)%Z then r else (r - 2 ^ 32)%Z.

(** ** Coordinate vectors *)

Definition PosType := list Q.

(** [v[i]].  Vectors of the tree all have [DIM] components; the default is
    never read by the code. *)
Definition at_ (v : PosType) (i : nat) : Q := nth i v 0%Q.

Definition vadd (a b : PosType) : PosType := zip_with Qplus a b.

Definition vsub (a b : PosType) : PosType := zip_with Qminus a b.

(** [v / k] for an [int] k *)
Definition vdiv (v : PosType) (k : Z) : PosType :=
  map (fun x => (x / inject_Z k)%Q) v.

(** [a > b] on coordinates *)
Definition Qgtb (a b : Q) : bool := negb (Qle_bool a b).

(** [a < b] on coordinates *)
Definition Qltb (a b : Q) : bool := negb (Qle_bool b a).

(** ** struct Boundary *)

Module Boundary.

Record t := Build { min : PosType; max : PosType }.

Definition size (b : t) : PosType := vsub (max b) (min b).

Definition center (b : t) : PosType := vdiv (vadd (max b) (min b)) 2.

(** The loop of [is_in] from axis [i] on, with [n] axes left. *)
Fixpoint is_in_from (b : t) (pos : PosType) (i n : nat) : bool :=
  match n with
  | O => true
  | S n' =>
      if Qltb (at_ pos i) (at_ (min b) i) || Qgtb (at_ pos i) (at_ (max b) i)
      then false
      else is_in_from b pos (S i) n'
  end.

Definition is_in (DIM : nat) (b : t) (pos : PosType) : bool :=
  is_in_from b pos 0 DIM.

End Boundary.

Section Octree.

(** Template parameters.  [child_num_ = 1 << DIM] is an array bound, so the
    template only instantiates when [2^DIM] is a positive [int]; lemmas that
    need it take [DIM <= 30] as a hypothesis. *)
Variable DIM : nat.
Variable DataType : Type.
(** [DataType()] *)
Variable DataType_default : DataType.
(** [operator+] of [DataType] *)
Variable DataType_add : DataType -> DataType -> DataType.
(** The virtual method [update(old_data, new_data)] in force. *)
Variable update : DataType -> DataType -> DataType.

Definition child_num_ : nat := Z.to_nat (int_shl1 DIM).

(** *** struct Node *)

Inductive Node : Type := Build_Node {
  center : PosType;
  data : DataType;
  depth : nat;
  childs : list (option Node)
}.

(** [Node(center, data, depth)]: every slot is [nullptr]. *)
Definition new_Node (c : PosType) (d : DataType) (k : nat) : Node :=
  Build_Node c d k (replicate child_num_ None).

(** [node->childs[i]]: [None] when the slot holds [nullptr]. *)
Definition child (node : Node) (i : Z) : option Node :=
  match childs node !! Z.to_nat i with
  | Some (Some c) => Some c
  | _ => None
  end.

(** [node->childs[i] = c] *)
Definition set_child (node : Node) (i : Z) (c : Node) : Node :=
  Build_Node (center node) (data node) (depth node)
             (<[Z.to_nat i := Some c]> (childs node)).

(** [node->data = d] *)
Definition set_data (node : Node) (d : DataType) : Node :=
  Build_Node (center node) d (depth node) (childs node).

(** *** class Octree *)

Record Tree := Build_Tree {
  boundary_ : Boundary.t;
  max_depth_ : nat;
  root_ : Node
}.

(** The constructor [Octree(min, max, depth)]. *)
Definition Octree (min max : PosType) (depth : nat) : Tree :=
  let b := Boundary.Build min max in
  Build_Tree b depth (new_Node (Boundary.center b) DataType_default 0).

(** The default body of [update]: [new_data + old_data]. *)
Definition update_default (old_data new_data : DataType) : DataType :=
  DataType_add new_data old_data.

(** [find_index]: the loop body sets bit [i] when [pos[i] > center[i]]. *)
Definition find_index (pos : PosType) (node : Node) : Z :=
  fold_left
    (fun index i =>
       if Qgtb (at_ pos i) (at_ (center node) i)
       then Z.lor index (int_shl1 i)
       else index)
    (seq 0 DIM) 0%Z.

(** [find_center]: starts from the node's centre and moves every axis by
    [half_size = boundary_.size() / (1 << (depth + 2))]. *)
Definition find_center (t : Tree) (pos : PosType) (node : Node) : PosType :=
  let half_size :=
    vdiv (Boundary.size (boundary_ t)) (int_shl1 (depth node + 2)) in
  fold_left
    (fun c i =>
       <[i := if Qgtb (at_ pos i) (at_ (center node) i)
              then (at_ c i + at_ half_size i)%Q
              else (at_ c i - at_ half_size i)%Q]> c)
    (seq 0 DIM) (center node).

(** The protected [insert(node, pos, data)]; [t] supplies [max_depth_] and
    [boundary_].  The result is the subtree [node] points to afterwards. *)
Fixpoint insert_node (fuel : nat) (t : Tree) (node : Node)
         (pos : PosType) (d : DataType) : option Node :=
  match fuel with
  | O => None
  | S fuel' =>
      if depth node + 1 =? max_depth_ t then Some node
      else
        let index := find_index pos node in
        let c :=
          match child node index with
          | None => new_Node (find_center t pos node) d (depth node + 1)
          | Some c0 => set_data c0 (update (data c0) d)
          end in
        match insert_node fuel' t c pos d with
        | None => None
        | Some c' => Some (set_child node index c')
        end
  end.

(** The cell the recursive call of [insert] is made on: the child in the
    slot of [pos] with its data updated, or the new node put there. *)
Definition next_cell (t : Tree) (node : Node) (pos : PosType) (d : DataType)
  : Node :=
  match child node (find_index pos node) with
  | None => new_Node (find_center t pos node) d (depth node + 1)
  | Some c0 => set_data c0 (update (data c0) d)
  end.

(** The subtree of [node] in memory once [steps] nested activations of
    [insert(node, pos, data)] have each stored their child: what the call
    has built so far, whether it returns or not. *)
Fixpoint insert_node_progress (steps : nat) (t : Tree) (node : Node)
         (pos : PosType) (d : DataType) : Node :=
  match steps with
  | O => node
  | S steps' =>
      if depth node + 1 =? max_depth_ t then node
      else
        set_child node (find_index pos node)
          (insert_node_progress steps' t (next_cell t node pos d) pos d)
  end.

(** The public [insert(pos, data)]. *)
Definition insert (fuel : nat) (t : Tree) (pos : PosType) (d : DataType)
  : option Tree :=
  if negb (Boundary.is_in DIM (boundary_ t) pos) then Some t
  else
    match insert_node fuel t (root_ t) pos d with
    | None => None
    | Some r => Some (Build_Tree (boundary_ t) (max_depth_ t) r)
    end.

(** The protected [find(node, pos, depth)]. *)
Fixpoint find_node (fuel : nat) (node : Node) (pos : PosType) (d : nat)
  : option Node :=
  match fuel with
  | O => None
  | S fuel' =>
      if depth node =? d then Some node
      else
        match child node (find_index pos node) with
        | None => Some node
        | Some c => find_node fuel' c pos d
        end
  end.

(** The public [find(pos, depth)]. *)
Definition find_at (fuel : nat) (t : Tree) (pos : PosType) (d : nat)
  : option Node :=
  find_node fuel (root_ t) pos d.

(** The public [find(pos)]. *)
Definition find (fuel : nat) (t : Tree) (pos : PosType) : option Node :=
  find_at fuel t pos (max_depth_ t).

(** [find_boundary(node, boundary)]: the out-parameter is the result. *)
Definition find_boundary (t : Tree) (node : Node) : Boundary.t :=
  let half_size :=
    vdiv (Boundary.size (boundary_ t)) (int_shl1 (depth node + 1)) in
  Boundary.Build (vsub (center node) half_size)
                 (vadd (center node) half_size).

(** [traverse(node, func)]: the callback acts on a state of type [St]; the
    loop over the slots is the fold.  The test [node == nullptr] on entry
    never fires: the root is not null and the loop skips the empty slots. *)
Fixpoint traverse {St : Type} (func : Node -> St -> St)
         (fuel : nat) (node : Node) (s : St) : option St :=
  match fuel with
  | O => None
  | S fuel' =>
      fold_left
        (fun acc slot =>
           match acc, slot with
           | Some s', Some c => traverse func fuel' c s'
           | _, _ => acc
           end)
        (childs node) (Some (func node s))
  end.

(** [visual(func)] *)
Definition visual {St : Type} (func : Node -> St -> St)
           (fuel : nat) (t : Tree) (s : St) : option St :=
  traverse func fuel (root_ t) s.

(** *** Runs and paths *)

(** A sequence of calls to [insert], in order. *)
Fixpoint insert_all (fuel : nat) (t : Tree) (l : list (PosType * DataType))
  : option Tree :=
  match l with
  | [] => Some t
  | (pos, d) :: l' =>
      match insert fuel t pos d with
      | None => None
      | Some t' => insert_all fuel t' l'
      end
  end.

(** The node reached from [node] along a list of slot indices. *)
Fixpoint node_at (node : Node) (path : list Z) : option Node :=
  match path with
  | [] => Some node
  | i :: path' =>
      match child node i with
      | None => None
      | Some c => node_at c path'
      end
  end.

(** The node reached from [node] after [k] steps of quadrant indexing on
    [pos]. *)
Fixpoint descend (node : Node) (pos : PosType) (k : nat) : option Node :=
  match k with
  | O => Some node
  | S k' =>
      match child node (find_index pos node) with
      | None => None
      | Some c => descend c pos k'
      end
  end.

(** The quadrant path of [pos]: the indices [insert] computes while it
    descends [n] levels through cells it creates. *)
Fixpoint route_from (t : Tree) (node : Node) (pos : PosType) (n : nat)
  : list Z :=
  match n with
  | O => []
  | S n' =>
      find_index pos node ::
      route_from t
        (new_Node (find_center t pos node) DataType_default (depth node + 1))
        pos n'
  end.

(** The leaf quadrant path of [pos] in a tree: [max_depth_ - 1] levels. *)
Definition route (t : Tree) (pos : PosType) : list Z :=
  route_from t (root_ t) pos (max_depth_ t - 1).

(** The cells of the quadrant path of [pos], [n] levels down from [node],
    exist with the centre and depth [insert] gives them and all hold the
    data [v]. *)
Fixpoint chain (t : Tree) (node : Node) (pos : PosType) (n : nat)
         (v : DataType) : Prop :=
  match n with
  | O => True
  | S n' =>
      exists c,
        child node (find_index pos node) = Some c /\
        center c = find_center t pos node /\
        depth c = depth node + 1 /\
        data c = v /\
        chain t c pos n' v
  end.

(** *** Invariants of the trees [insert] builds *)

(** Depths: a child is one level below its parent and above [m]. *)
Inductive depth_ok (m : nat) : Node -> Prop :=
| depth_ok_intro (n : Node) :
    (forall k c, childs n !! k = Some (Some c) -> depth c = depth n + 1) ->
    (forall k c, childs n !! k = Some (Some c) -> depth c < m) ->
    (forall k c, childs n !! k = Some (Some c) -> depth_ok m c) ->
    depth_ok m n.

(** A tree whose root is at depth 0 and whose nodes satisfy [depth_ok]. *)
Definition tree_depth_ok (t : Tree) : Prop :=
  depth (root_ t) = 0 /\ depth_ok (max_depth_ t) (root_ t).

(** Geometry: centres have [DIM] components, and a child sits in the slot
    of some position, one level down, at the centre [find_center] gives for
    that position. *)
Inductive geom_ok (t : Tree) : Node -> Prop :=
| geom_ok_intro (n : Node) :
    DIM <= length (center n) ->
    (forall k c, childs n !! k = Some (Some c) ->
       exists pos,
         k = Z.to_nat (find_index pos n) /\
         center c = find_center t pos n /\
         depth c = depth n + 1) ->
    (forall k c, childs n !! k = Some (Some c) -> geom_ok t c) ->
    geom_ok t n.

End Octree.

Arguments center {DataType} _.
Arguments data {DataType} _.
Arguments depth {DataType} _.
Arguments childs {DataType} _.
Arguments boundary_ {DataType} _.
Arguments max_depth_ {DataType} _.
Arguments root_ {DataType} _.
Arguments Build_Node {DataType} _ _ _ _.
Arguments Build_Tree {DataType} _ _ _.
Arguments new_Node DIM {DataType} _ _ _.
Arguments child {DataType} _ _.
Arguments set_child {DataType} _ _ _.
Arguments set_data {DataType} _ _.
Arguments Octree DIM {DataType} _ _ _ _.
Arguments update_default {DataType} _ _ _.
Arguments find_index DIM {DataType} _ _.
Arguments find_center DIM {DataType} _ _ _.
Arguments insert_node DIM {DataType} _ _ _ _ _ _.
Arguments insert DIM {DataType} _ _ _ _ _.
Arguments find_node DIM {DataType} _ _ _ _.
Arguments find_at DIM {DataType} _ _ _ _.
Arguments find DIM {DataType} _ _ _.
Arguments find_boundary {DataType} _ _.
Arguments traverse {DataType St} _ _ _ _.
Arguments visual {DataType St} _ _ _ _.
Arguments insert_all DIM {DataType} _ _ _ _.
Arguments node_at {DataType} _ _.
Arguments descend DIM {DataType} _ _ _.
Arguments route_from DIM {DataType} _ _ _ _ _.
Arguments route DIM {DataType} _ _ _.
Arguments chain DIM {DataType} _ _ _ _ _.
Arguments depth_ok {DataType} _ _.
Arguments tree_depth_ok {DataType} _.
Arguments next_cell DIM {DataType} _ _ _ _ _.
Arguments insert_node_progress DIM {DataType} _ _ _ _ _ _.
Arguments geom_ok DIM {DataType} _ _.

(** ** Regions as sets of positions *)

(** [pos] lies in the closed box [b] on the first [DIM] axes. *)
Definition In_region (DIM : nat) (b : Boundary.t) (pos : PosType) : Prop :=
  forall i, i < DIM ->
    (at_ (Boundary.min b) i <= at_ pos i)%Q /\
    (at_ pos i <= at_ (Boundary.max b) i)%Q.

(** [pos] lies strictly inside [b]. *)
Definition In_interior (DIM : nat) (b : Boundary.t) (pos : PosType) : Prop :=
  forall i, i < DIM ->
    (at_ (Boundary.min b) i < at_ pos i)%Q /\
    (at_ pos i < at_ (Boundary.max b) i)%Q.

(** A tree whose root is the cell of the whole boundary and whose nodes
    satisfy [geom_ok]. *)
Definition tree_geom_ok (DIM : nat) {DataType : Type} (t : Tree DataType)
  : Prop :=
  center (root_ t) = Boundary.center (boundary_ t) /\
  depth (root_ t) = 0 /\
  DIM <= length (Boundary.size (boundary_ t)) /\
  geom_ok DIM t (root_ t).

(** Two boxes with the same bounds as rational numbers. *)
Definition same_region (DIM : nat) (a b : Boundary.t) : Prop :=
  forall i, i < DIM ->
    (at_ (Boundary.min a) i == at_ (Boundary.min b) i)%Q /\
    (at_ (Boundary.max a) i == at_ (Boundary.max b) i)%Q.

(** ** The instance of the demo: [QuadTree<Point, int>] over (0,0)-(100,100) *)

Module Demo.

Definition DIM : nat := 2.

Definition pmin : PosType := [0; 0]%Q.

Definition pmax : PosType := [100; 100]%Q.

(** The default aggregation on integers. *)
Definition sum : Z -> Z -> Z := update_default Z.add.

(** [Quad quadtree(min, max, 4)] *)
Definition quadtree : Tree Z := Octree DIM 0%Z pmin pmax 4.

Definition p25 : PosType := [25; 25]%Q.

Definition p150 : PosType := [150; 150]%Q.

(** [Quad quadtree0(min, max, 0)] *)
Definition quadtree0 : Tree Z := Octree DIM 0%Z pmin pmax 0.

(** [Quad quadtree2(min, max, 2)] *)
Definition quadtree2 : Tree Z := Octree DIM 0%Z pmin pmax 2.

(** An overriding [update]: the product of the values. *)
Definition product (old_data new_data : Z) : Z := (old_data * new_data)%Z.

Definition p3070 : PosType := [30; 70]%Q.

(** [Quad quadtree31(min, max, 31)] *)
Definition quadtree31 : Tree Z := Octree DIM 0%Z pmin pmax 31.

(** A callback for [visual]: it records the depth and data of the node. *)
Definition log_node (n : Node Z) (s : list (nat * Z)) : list (nat * Z) :=
  s ++ [(depth n, data n)].

(** The three insertions of the scenario: (25,25) with value 1, three
    times. *)
Definition three : list (PosType * Z) := [(p25, 1%Z); (p25, 1%Z); (p25, 1%Z)].

End Demo.

(** ** Further invariants and measures *)

(** Every node has the [child_num_] slots of its array. *)
Inductive slots_ok (DIM : nat) {DataType : Type} : Node DataType -> Prop :=
| slots_ok_intro (n : Node DataType) :
    length (childs n) = child_num_ DIM ->
    (forall k c, childs n !! k = Some (Some c) -> slots_ok DIM c) ->
    slots_ok DIM n.

(** The sum of the data of the children present in an array of slots. *)
Definition child_sum (slots : list (option (Node Z))) : Z :=
  fold_right
    (fun slot acc =>
       match slot with
       | Some c => (data c + acc)%Z
       | None => acc
       end)
    0%Z slots.

(** Aggregation with the default sum: a child that is not on the last level
    holds the sum of the data of its own children. *)
Inductive agg_ok (m : nat) : Node Z -> Prop :=
| agg_ok_intro (n : Node Z) :
    (forall k c, childs n !! k = Some (Some c) ->
                 depth c + 1 < m -> data c = child_sum (childs c)) ->
    (forall k c, childs n !! k = Some (Some c) -> agg_ok m c) ->
    agg_ok m n.

(** The sum of the values of the insertions that fall inside the boundary. *)
Fixpoint total_in (DIM : nat) (b : Boundary.t) (l : list (PosType * Z)) : Z :=
  match l with
  | [] => 0%Z
  | (pos, v) :: l' =>
      ((if Boundary.is_in DIM b pos then v else 0) + total_in DIM b l')%Z
  end.

(** A callback for [visual] that records the nodes it is called on. *)
Definition record_node {DataType : Type}
           (n : Node DataType) (l : list (Node DataType))
  : list (Node DataType) :=
  l ++ [n].

(** ** [get_file_name] of [core/tt_log.cc] *)

Module Log.

Import Ascii String.

(** [s.find_last_of(c)]: the position of the last [c] in [s]; [None] is
    [std::string::npos]. *)
Fixpoint find_last_of (s : string) (c : ascii) : option nat :=
  match s with
  | EmptyString => None
  | String a s' =>
      match find_last_of s' c with
      | Some i => Some (S i)
      | None => if Ascii.eqb a c then Some 0 else None
      end
  end.

(** [s.substr(pos)]: the characters from [pos] to the end; a [pos] beyond
    the size throws [std::out_of_range], here [None]. *)
Definition substr (s : string) (pos : nat) : option string :=
  if pos <=? length s then Some (substring pos (length s - pos) s) else None.

(** [get_file_name(file_name)]; [None] would be an exception that escapes
    the function. *)
Definition get_file_name (file_name : string) : option string :=
  match find_last_of file_name "/"%char with
  | None => Some file_name
  | Some pos => substr file_name (pos + 1)
  end.

(** No character of [s] is a slash. *)
Definition no_slash (s : string) : Prop :=
  ~ In "/"%char (list_ascii_of_string s).

End Log.

(** * Properties *)

(** Tactics for closed runs: [run_closed] evaluates a call that returns and
    names its result; [reveal] replaces a result by its value. *)
Ltac run_closed call t E :=
  destruct call as [t|] eqn:E; [|vm_compute in E; discriminate].

Ltac reveal E x := vm_compute in E; inversion E; subst x; clear E.

(** ** The scenario of the demo *)

(** After (25,25) is inserted three times with value 1, [find((25,25), 1)]
    is the node at depth 1 with data 3 and [find((25,25))] is the node at
    depth 3, centred at (18.75, 18.75). *)
Example demo_find :
  exists t n1 n,
    insert_all Demo.DIM Demo.sum 4 Demo.quadtree Demo.three = Some t /\
    find_at Demo.DIM 4 t Demo.p25 1 = Some n1 /\
    (depth n1, data n1) = (1, 3%Z) /\
    find Demo.DIM 4 t Demo.p25 = Some n /\
    (depth n, data n) = (3, 3%Z) /\
    (at_ (center n) 0 == 75 # 4)%Q /\ (at_ (center n) 1 == 75 # 4)%Q.
Proof.
  do 3 eexists.
  split; [vm_compute; reflexivity|].
  split; [vm_compute; reflexivity|].
  split; [reflexivity|].
  split; [vm_compute; reflexivity|].
  split; [reflexivity|].
  split; reflexivity.
Qed.

(** [visual] visits the root first and then the chain, parent before
    child. *)
Example demo_visual :
  exists t,
    insert_all Demo.DIM Demo.sum 4 Demo.quadtree Demo.three = Some t /\
    visual Demo.log_node 4 t [] =
    Some [(0, 0%Z); (1, 3%Z); (2, 3%Z); (3, 3%Z)].
Proof.
  eexists. split; vm_compute; reflexivity.
Qed.

(** ** Integers and coordinates *)

Lemma int_shl1_small (k : nat) : k < 31 -> int_shl1 k = (2 ^ Z.of_nat k)%Z.
Proof.
  intros Hk. unfold int_shl1.
  rewrite Z.mod_small by lia.
  rewrite Z.shiftl_1_l.
  assert (2 ^ Z.of_nat k < 2 ^ 31)%Z as Hlt
      by (apply Z.pow_lt_mono_r; lia).
  apply Z.ltb_lt in Hlt. cbv zeta. now rewrite Hlt.
Qed.

Lemma int_shl1_31 : int_shl1 31 = (- 2 ^ 31)%Z.
Proof. reflexivity. Qed.

Lemma Qgtb_true (a b : Q) : Qgtb a b = true <-> (b < a)%Q.
Proof.
  unfold Qgtb. rewrite negb_true_iff.
  destruct (Qle_bool a b) eqn:E.
  - apply Qle_bool_iff in E. split; [discriminate | intros; lra].
  - split; [intros _ | reflexivity].
    destruct (Qlt_le_dec b a) as [|Hle]; [assumption|].
    apply Qle_bool_iff in Hle. congruence.
Qed.

Lemma Qgtb_false (a b : Q) : Qgtb a b = false <-> (a <= b)%Q.
Proof.
  destruct (Qgtb a b) eqn:E.
  - apply Qgtb_true in E. split; [discriminate | intros; lra].
  - split; [intros _ | reflexivity].
    destruct (Qlt_le_dec b a) as [Hlt|]; [|assumption].
    apply Qgtb_true in Hlt. congruence.
Qed.

Lemma Qltb_true (a b : Q) : Qltb a b = true <-> (a < b)%Q.
Proof. apply (Qgtb_true b a). Qed.

(** ** [Boundary::is_in] *)

Lemma is_in_from_true (b : Boundary.t) (pos : PosType) (n i : nat) :
  Boundary.is_in_from b pos i n = true <->
  forall j, i <= j < i + n ->
    (at_ (Boundary.min b) j <= at_ pos j)%Q /\
    (at_ pos j <= at_ (Boundary.max b) j)%Q.
Proof.
  revert i. induction n as [|n IH]; intros i; simpl.
  - split; [intros _ j Hj; lia | reflexivity].
  - destruct (Qltb (at_ pos i) (at_ (Boundary.min b) i)) eqn:E1; simpl.
    + apply Qltb_true in E1. split; [discriminate|].
      intros H. destruct (H i) as [H1 _]; [lia | lra].
    + destruct (Qgtb (at_ pos i) (at_ (Boundary.max b) i)) eqn:E2.
      * apply Qgtb_true in E2. split; [discriminate|].
        intros H. destruct (H i) as [_ H2]; [lia | lra].
      * apply (Qgtb_false (at_ (Boundary.min b) i) (at_ pos i)) in E1.
        apply Qgtb_false in E2.
        rewrite IH. split.
        -- intros H j Hj. destruct (Nat.eq_dec j i) as [->|Hne].
           ++ split; assumption.
           ++ apply H. lia.
        -- intros H j Hj. apply H. lia.
Qed.

Lemma is_in_true (DIM : nat) (b : Boundary.t) (pos : PosType) :
  Boundary.is_in DIM b pos = true <-> In_region DIM b pos.
Proof.
  unfold Boundary.is_in, In_region. rewrite is_in_from_true.
  split; intros H j Hj; apply H; lia.
Qed.

(** C2.  A position with a coordinate strictly below the boundary minimum or
    strictly above the boundary maximum is ignored by [insert]: the call
    returns, without any recursion, the tree it was given, so the root and
    every node keep their centre, data, depth and children, and no node is
    created. *)
Theorem insert_out_of_bounds_noop
  (DIM : nat) (DataType : Type) (update : DataType -> DataType -> DataType)
  (fuel : nat) (t : Tree DataType) (pos : PosType) (d : DataType) :
  (exists i, i < DIM /\
     ((at_ pos i < at_ (Boundary.min (boundary_ t)) i)%Q \/
      (at_ (Boundary.max (boundary_ t)) i < at_ pos i)%Q)) ->
  insert DIM update fuel t pos d = Some t.
Proof.
  intros (i & Hi & Hout). unfold insert.
  destruct (Boundary.is_in DIM (boundary_ t) pos) eqn:E; [|reflexivity].
  apply is_in_true in E. destruct (E i Hi) as [H1 H2].
  destruct Hout; lra.
Qed.

Lemma insert_out_of_bounds_noop_witness :
  (exists i, i < Demo.DIM /\
     ((at_ Demo.p150 i < at_ (Boundary.min (boundary_ Demo.quadtree)) i)%Q \/
      (at_ (Boundary.max (boundary_ Demo.quadtree)) i < at_ Demo.p150 i)%Q)) /\
  insert Demo.DIM Demo.sum 0 Demo.quadtree Demo.p150 1%Z = Some Demo.quadtree.
Proof.
  assert (exists i, i < Demo.DIM /\
     ((at_ Demo.p150 i < at_ (Boundary.min (boundary_ Demo.quadtree)) i)%Q \/
      (at_ (Boundary.max (boundary_ Demo.quadtree)) i < at_ Demo.p150 i)%Q))
    as H.
  { exists 0. split; [unfold Demo.DIM; lia | right; reflexivity]. }
  split; [exact H|].
  exact (insert_out_of_bounds_noop Demo.DIM Z Demo.sum 0 Demo.quadtree
           Demo.p150 1%Z H).
Defined.

(** ** [find_index] *)

Section Indexing.

Context (DIM : nat) {DataType : Type}.

(** The index after the first [n] rounds of the loop of [find_index]. *)
Lemma index_loop_spec (pos c : PosType) (n : nat) :
  n <= 31 ->
  let idx :=
    fold_left
      (fun index i =>
         if Qgtb (at_ pos i) (at_ c i)
         then Z.lor index (int_shl1 i) else index)
      (seq 0 n) 0%Z in
  (0 <= idx < 2 ^ Z.of_nat n)%Z /\
  forall j : nat,
    Z.testbit idx (Z.of_nat j) = (j <? n) && Qgtb (at_ pos j) (at_ c j).
Proof.
  induction n as [|n IH]; intros Hn; cbv zeta.
  - simpl. split; [lia|]. intros j. now rewrite Z.testbit_0_l.
  - rewrite seq_S, fold_left_app. simpl.
    destruct IH as [[Hlo Hhi] Hbits]; [lia|].
    set (idx := fold_left _ (seq 0 n) 0%Z) in *.
    assert (2 ^ Z.of_nat (S n) = 2 * 2 ^ Z.of_nat n)%Z as Hpow
        by (rewrite Nat2Z.inj_succ, Z.pow_succ_r; lia).
    destruct (Qgtb (at_ pos n) (at_ c n)) eqn:E.
    + rewrite int_shl1_small by lia.
      assert (0 < 2 ^ Z.of_nat n)%Z as Hp by (apply Z.pow_pos_nonneg; lia).
      assert (0 <= Z.lor idx (2 ^ Z.of_nat n))%Z as Hnn
          by (apply Z.lor_nonneg; lia).
      split.
      * split; [assumption|].
        assert (0 < Z.lor idx (2 ^ Z.of_nat n))%Z as Hpos.
        { destruct (Z.eq_dec (Z.lor idx (2 ^ Z.of_nat n)) 0%Z) as [E0|]; [|lia].
          apply Z.lor_eq_0_iff in E0. lia. }
        apply Z.log2_lt_pow2; [assumption|].
        rewrite Z.log2_lor by lia.
        rewrite Z.log2_pow2 by lia.
        assert (Z.log2 idx <= Z.of_nat n)%Z.
        { destruct (Z.eq_dec idx 0%Z) as [->|]; [simpl; lia|].
          assert (Z.log2 idx < Z.of_nat n)%Z
            by (apply Z.log2_lt_pow2; lia).
          lia. }
        lia.
      * intros j. rewrite Z.lor_spec, Hbits.
        rewrite Z.pow2_bits_eqb by lia.
        destruct (Nat.eq_dec j n) as [->|Hne].
        -- rewrite Z.eqb_refl, E, orb_true_r.
           replace (n <? S n) with true
             by (symmetry; apply Nat.ltb_lt; lia).
           reflexivity.
        -- replace (Z.of_nat n =? Z.of_nat j)%Z with false
             by (symmetry; apply Z.eqb_neq; lia).
           rewrite orb_false_r.
           destruct (Nat.ltb_spec j n), (Nat.ltb_spec j (S n));
             try reflexivity; lia.
    + split; [lia|].
      intros j. rewrite Hbits.
      destruct (Nat.eq_dec j n) as [->|Hne].
      * rewrite E, !andb_false_r. reflexivity.
      * destruct (Nat.ltb_spec j n), (Nat.ltb_spec j (S n));
          try reflexivity; lia.
Qed.

Lemma find_index_range (pos : PosType) (node : Node DataType) :
  DIM <= 30 ->
  (0 <= find_index DIM pos node < 2 ^ Z.of_nat DIM)%Z.
Proof.
  intros H. apply (index_loop_spec pos (center node) DIM). lia.
Qed.

Lemma find_index_testbit (pos : PosType) (node : Node DataType) (j : nat) :
  DIM <= 30 ->
  Z.testbit (find_index DIM pos node) (Z.of_nat j) =
  (j <? DIM) && Qgtb (at_ pos j) (at_ (center node) j).
Proof.
  intros H. apply (index_loop_spec pos (center node) DIM). lia.
Qed.

Lemma child_num_pow : DIM <= 30 -> child_num_ DIM = 2 ^ DIM.
Proof.
  intros H. unfold child_num_. rewrite int_shl1_small by lia.
  change 2%Z with (Z.of_nat 2). rewrite <- Nat2Z.inj_pow.
  apply Nat2Z.id.
Qed.

Lemma find_index_slot (pos : PosType) (node : Node DataType) :
  DIM <= 30 ->
  Z.to_nat (find_index DIM pos node) < child_num_ DIM.
Proof.
  intros H. pose proof (find_index_range pos node H) as [H0 H1].
  rewrite child_num_pow by assumption.
  apply Nat2Z.inj_lt. rewrite Z2Nat.id by assumption.
  rewrite Nat2Z.inj_pow. exact H1.
Qed.

(** Two positions with the same index compare alike with the centre. *)
Lemma find_index_eq_cmp (p q : PosType) (node : Node DataType) (j : nat) :
  DIM <= 30 -> j < DIM ->
  find_index DIM p node = find_index DIM q node ->
  Qgtb (at_ p j) (at_ (center node) j) = Qgtb (at_ q j) (at_ (center node) j).
Proof.
  intros H Hj E.
  pose proof (find_index_testbit p node j H) as Hp.
  pose proof (find_index_testbit q node j H) as Hq.
  rewrite E in Hp. rewrite Hp in Hq.
  apply Nat.ltb_lt in Hj. rewrite Hj in Hq. exact Hq.
Qed.

End Indexing.

(** ** Slots *)

Section Slots.

Context {DataType : Type}.

Implicit Types (node c : Node DataType) (i j : Z).

Lemma child_Some node i c :
  child node i = Some c <-> childs node !! Z.to_nat i = Some (Some c).
Proof.
  unfold child. destruct (childs node !! Z.to_nat i) as [[x|]|].
  - split; intros E; inversion E; reflexivity.
  - split; discriminate.
  - split; discriminate.
Qed.

Lemma child_set_child_eq node i c :
  Z.to_nat i < length (childs node) ->
  child (set_child node i c) i = Some c.
Proof.
  intros H. apply child_Some. simpl.
  now apply list_lookup_insert_eq.
Qed.

Lemma child_set_child_ne node i j c :
  Z.to_nat i <> Z.to_nat j ->
  child (set_child node i c) j = child node j.
Proof.
  intros H. unfold child. simpl.
  now rewrite list_lookup_insert_ne.
Qed.

Lemma childs_set_child_Some node i c k x :
  childs (set_child node i c) !! k = Some (Some x) ->
  (k = Z.to_nat i /\ x = c) \/ childs node !! k = Some (Some x).
Proof.
  simpl. intros H. apply list_lookup_insert_Some in H.
  destruct H as [(-> & E & _) | (_ & H)].
  - left. split; [reflexivity | congruence].
  - right. exact H.
Qed.

Lemma childs_new_Node DIM (p : PosType) (d : DataType) (n k : nat) x :
  childs (new_Node DIM p d n) !! k = Some (Some x) -> False.
Proof.
  simpl. intros H. apply lookup_replicate_1 in H. destruct H. discriminate.
Qed.

Lemma child_new_Node DIM (p : PosType) (d : DataType) (n : nat) i :
  child (new_Node DIM p d n) i = None.
Proof.
  destruct (child (new_Node DIM p d n) i) as [x|] eqn:E; [|reflexivity].
  apply child_Some in E. now apply childs_new_Node in E.
Qed.

End Slots.

(** ** The depth invariant *)

Section Depths.

Context (DIM : nat) {DataType : Type} (DataType_default : DataType)
        (update : DataType -> DataType -> DataType).

Implicit Types (node c r : Node DataType) (t : Tree DataType).

Lemma depth_ok_new_Node m (p : PosType) (d : DataType) (n : nat) :
  depth_ok m (new_Node DIM p d n).
Proof.
  constructor; intros k c H; exfalso; eapply childs_new_Node; exact H.
Qed.

Lemma depth_ok_set_data m node (d : DataType) :
  depth_ok m node -> depth_ok m (set_data node d).
Proof.
  intros H. inversion H as [n H1 H2 H3]; subst.
  constructor; simpl; assumption.
Qed.

Lemma depth_ok_child m node i c :
  depth_ok m node -> child node i = Some c ->
  depth c = depth node + 1 /\ depth c < m /\ depth_ok m c.
Proof.
  intros H E. apply child_Some in E.
  inversion H as [n H1 H2 H3]; subst.
  split; [eauto | split; eauto].
Qed.

Lemma insert_node_S fuel t node pos d :
  insert_node DIM update (S fuel) t node pos d =
  if depth node + 1 =? max_depth_ t then Some node
  else match insert_node DIM update fuel t
                         (next_cell DIM update t node pos d) pos d with
       | None => None
       | Some c' => Some (set_child node (find_index DIM pos node) c')
       end.
Proof. reflexivity. Qed.

Lemma next_cell_depth_ok t node pos d :
  depth_ok (max_depth_ t) node ->
  depth_ok (max_depth_ t) (next_cell DIM update t node pos d) /\
  depth (next_cell DIM update t node pos d) = depth node + 1.
Proof.
  intros H. unfold next_cell.
  destruct (child node (find_index DIM pos node)) as [c0|] eqn:E.
  - destruct (depth_ok_child _ _ _ _ H E) as (Hd & _ & Hc).
    split; [now apply depth_ok_set_data | exact Hd].
  - split; [apply depth_ok_new_Node | reflexivity].
Qed.

(** Below the stopping depth the test [depth + 1 == max_depth_] never holds
    again: the call does not return. *)
Lemma insert_node_overrun fuel t node pos d :
  depth_ok (max_depth_ t) node ->
  max_depth_ t <= depth node ->
  insert_node DIM update fuel t node pos d = None.
Proof.
  revert node. induction fuel as [|fuel IH]; intros node Hok Hle.
  - reflexivity.
  - rewrite insert_node_S.
    destruct (Nat.eqb_spec (depth node + 1) (max_depth_ t)) as [E|_]; [lia|].
    destruct (next_cell_depth_ok t node pos d Hok) as [Hc Hd].
    rewrite IH; [reflexivity | assumption | lia].
Qed.

Lemma insert_node_depth_ok fuel t node pos d r :
  depth_ok (max_depth_ t) node ->
  insert_node DIM update fuel t node pos d = Some r ->
  depth_ok (max_depth_ t) r /\ depth r = depth node.
Proof.
  revert node r. induction fuel as [|fuel IH]; intros node r Hok E.
  - discriminate.
  - rewrite insert_node_S in E.
    destruct (Nat.eqb_spec (depth node + 1) (max_depth_ t)) as [Em|Hne].
    + inversion E; subst. split; [assumption | reflexivity].
    + destruct (next_cell_depth_ok t node pos d Hok) as [Hc Hd].
      destruct (insert_node DIM update fuel t
                  (next_cell DIM update t node pos d) pos d)
        as [c'|] eqn:Ec; [|discriminate].
      inversion E; subst r; clear E.
      destruct (IH _ _ Hc Ec) as [Hc' Hd'].
      assert (depth (next_cell DIM update t node pos d) < max_depth_ t) as Hlt.
      { destruct (Nat.lt_ge_cases (depth (next_cell DIM update t node pos d))
                    (max_depth_ t)) as [|Hge]; [assumption|].
        rewrite (insert_node_overrun _ _ _ _ _ Hc Hge) in Ec. discriminate. }
      split; [|reflexivity].
      inversion Hok as [n H1 H2 H3]; subst.
      constructor; intros k x Hk;
        (apply childs_set_child_Some in Hk;
         destruct Hk as [[-> ->]|Hk]; [|eauto]).
      * simpl. lia.
      * lia.
      * assumption.
Qed.

Lemma Octree_depth_ok (pmin pmax : PosType) (m : nat) :
  tree_depth_ok (Octree DIM DataType_default pmin pmax m).
Proof. split; [reflexivity | apply depth_ok_new_Node]. Qed.

Lemma insert_keeps t fuel pos d t' :
  insert DIM update fuel t pos d = Some t' ->
  boundary_ t' = boundary_ t /\ max_depth_ t' = max_depth_ t.
Proof.
  unfold insert. intros E.
  destruct (negb (Boundary.is_in DIM (boundary_ t) pos)).
  - inversion E; subst. split; reflexivity.
  - destruct (insert_node DIM update fuel t (root_ t) pos d);
      [|discriminate].
    inversion E; subst. split; reflexivity.
Qed.

Lemma insert_depth_ok t fuel pos d t' :
  tree_depth_ok t ->
  insert DIM update fuel t pos d = Some t' ->
  tree_depth_ok t'.
Proof.
  intros [H0 Hok] E. unfold insert in E.
  destruct (negb (Boundary.is_in DIM (boundary_ t) pos)).
  - inversion E; subst. split; assumption.
  - destruct (insert_node DIM update fuel t (root_ t) pos d) as [r|] eqn:Er;
      [|discriminate].
    inversion E; subst.
    destruct (insert_node_depth_ok _ _ _ _ _ _ Hok Er) as [Hr Hd].
    split; simpl; [lia | assumption].
Qed.

(** [insert] never writes to the node it is called on, only to its slots. *)
Lemma insert_node_same fuel t node pos d r :
  insert_node DIM update fuel t node pos d = Some r ->
  data r = data node /\ center r = center node /\ depth r = depth node.
Proof.
  destruct fuel as [|fuel]; [discriminate|].
  rewrite insert_node_S.
  destruct (depth node + 1 =? max_depth_ t).
  - intros E. inversion E; subst. auto.
  - destruct (insert_node DIM update fuel t
                (next_cell DIM update t node pos d) pos d);
      [|discriminate].
    intros E. inversion E; subst. auto.
Qed.

Lemma insert_root_data t fuel pos d t' :
  insert DIM update fuel t pos d = Some t' ->
  data (root_ t') = data (root_ t).
Proof.
  unfold insert. intros E.
  destruct (negb (Boundary.is_in DIM (boundary_ t) pos)).
  - inversion E; subst. reflexivity.
  - destruct (insert_node DIM update fuel t (root_ t) pos d) as [r|] eqn:Er;
      [|discriminate].
    inversion E; subst. simpl.
    now destruct (insert_node_same _ _ _ _ _ _ Er).
Qed.

Lemma insert_all_root_data l t fuel t' :
  insert_all DIM update fuel t l = Some t' ->
  data (root_ t') = data (root_ t).
Proof.
  revert t. induction l as [|[pos d] l IH]; intros t E; simpl in E.
  - inversion E; subst. reflexivity.
  - destruct (insert DIM update fuel t pos d) as [t1|] eqn:E1; [|discriminate].
    rewrite (IH _ E). exact (insert_root_data _ _ _ _ _ E1).
Qed.

(** More fuel does not change the result of a call that returns. *)
Lemma insert_node_fuel_mono fuel fuel' t node pos d r :
  insert_node DIM update fuel t node pos d = Some r ->
  fuel <= fuel' ->
  insert_node DIM update fuel' t node pos d = Some r.
Proof.
  revert fuel' node r. induction fuel as [|fuel IH]; intros fuel' node r E Hle.
  - discriminate.
  - destruct fuel' as [|fuel']; [lia|].
    rewrite insert_node_S in *.
    destruct (depth node + 1 =? max_depth_ t); [exact E|].
    destruct (insert_node DIM update fuel t
                (next_cell DIM update t node pos d) pos d) as [c'|] eqn:Ec;
      [|discriminate].
    rewrite (IH fuel' _ _ Ec) by lia. exact E.
Qed.

Lemma insert_fuel_mono fuel fuel' t pos d t' :
  insert DIM update fuel t pos d = Some t' ->
  fuel <= fuel' ->
  insert DIM update fuel' t pos d = Some t'.
Proof.
  unfold insert. intros E Hle.
  destruct (negb (Boundary.is_in DIM (boundary_ t) pos)); [exact E|].
  destruct (insert_node DIM update fuel t (root_ t) pos d) as [r|] eqn:Er;
    [|discriminate].
  now rewrite (insert_node_fuel_mono _ fuel' _ _ _ _ _ Er Hle).
Qed.

Lemma insert_all_fuel_mono l fuel fuel' t t' :
  insert_all DIM update fuel t l = Some t' ->
  fuel <= fuel' ->
  insert_all DIM update fuel' t l = Some t'.
Proof.
  revert t. induction l as [|[pos d] l IH]; intros t E Hle; simpl in *.
  - exact E.
  - destruct (insert DIM update fuel t pos d) as [t1|] eqn:E1; [|discriminate].
    rewrite (insert_fuel_mono _ fuel' _ _ _ _ E1 Hle). now apply IH.
Qed.

Lemma insert_all_keeps l t fuel t' :
  insert_all DIM update fuel t l = Some t' ->
  boundary_ t' = boundary_ t /\ max_depth_ t' = max_depth_ t.
Proof.
  revert t. induction l as [|[pos d] l IH]; intros t E; simpl in E.
  - inversion E; subst. split; reflexivity.
  - destruct (insert DIM update fuel t pos d) as [t1|] eqn:E1; [|discriminate].
    destruct (insert_keeps _ _ _ _ _ E1) as [Hb Hm].
    destruct (IH _ E) as [Hb' Hm']. split; congruence.
Qed.

Lemma insert_all_depth_ok l t fuel t' :
  tree_depth_ok t ->
  insert_all DIM update fuel t l = Some t' ->
  tree_depth_ok t'.
Proof.
  revert t. induction l as [|[pos d] l IH]; intros t Hok E; simpl in E.
  - inversion E; subst. assumption.
  - destruct (insert DIM update fuel t pos d) as [t1|] eqn:E1; [|discriminate].
    eapply IH; [|exact E]. eapply insert_depth_ok; eassumption.
Qed.

(** Every node of a tree satisfying [depth_ok] sits at the depth of its
    path, above [m] unless it is the root. *)
Lemma node_at_depth m node (path : list Z) n :
  depth_ok m node ->
  node_at node path = Some n ->
  depth n = depth node + length path /\
  depth_ok m n /\
  (path <> [] -> depth n < m).
Proof.
  revert node. induction path as [|i path IH]; intros node Hok E; simpl in E.
  - inversion E; subst. split; [simpl; lia|]. split; [assumption|]. congruence.
  - destruct (child node i) as [c|] eqn:Ec; [|discriminate].
    destruct (depth_ok_child _ _ _ _ Hok Ec) as (Hd & Hlt & Hc).
    destruct (IH _ Hc E) as (Hn & Hokn & Hb).
    split; [simpl; lia|]. split; [assumption|].
    intros _. destruct path as [|j path'].
    + simpl in E. inversion E; subst. assumption.
    + apply Hb. discriminate.
Qed.

End Depths.

(** The nodes of a tree built by [insert] calls are at depth at most
    [max_depth]. *)
Lemma insert_depth_bound_nodes
  (DIM : nat) (DataType : Type) (DataType_default : DataType)
  (update : DataType -> DataType -> DataType)
  (pmin pmax : PosType) (m fuel : nat) (l : list (PosType * DataType))
  (t : Tree DataType) :
  insert_all DIM update fuel (Octree DIM DataType_default pmin pmax m) l
    = Some t ->
  forall path n, node_at (root_ t) path = Some n -> depth n <= m.
Proof.
  intros E path n En.
  destruct (insert_all_keeps DIM update _ _ _ _ E) as [_ Hm]. simpl in Hm.
  pose proof (insert_all_depth_ok DIM update _ _ _ _
                (Octree_depth_ok DIM DataType_default pmin pmax m) E)
    as [H0 Hok].
  rewrite Hm in Hok.
  destruct (node_at_depth _ _ _ _ Hok En) as (Hd & _ & Hb).
  destruct path as [|i path]; [simpl in Hd; lia|].
  assert (depth n < m) by (apply Hb; discriminate). lia.
Qed.

(** ** [find] *)

Section Find.

Context (DIM : nat) {DataType : Type}.

Implicit Types (node c r : Node DataType) (t : Tree DataType).

Lemma descend_None_ge node pos k k' :
  descend DIM node pos k = None -> k <= k' ->
  descend DIM node pos k' = None.
Proof.
  revert node k'. induction k as [|k IH]; intros node k' E Hle.
  - discriminate.
  - destruct k' as [|k']; [lia|]. simpl in *.
    destruct (child node (find_index DIM pos node)) as [c|]; [|reflexivity].
    apply IH; [assumption | lia].
Qed.

Lemma descend_node_at node pos k n :
  descend DIM node pos k = Some n ->
  exists path, length path = k /\ node_at node path = Some n.
Proof.
  revert node. induction k as [|k IH]; intros node E; simpl in E.
  - exists []. split; [reflexivity | exact E].
  - destruct (child node (find_index DIM pos node)) as [c|] eqn:Ec;
      [|discriminate].
    destruct (IH _ E) as (path & Hlen & Hp).
    exists (find_index DIM pos node :: path). simpl. rewrite Ec.
    split; [lia | exact Hp].
Qed.

(** The recursion of [find]: with one unit of fuel per level left above
    [m], the call returns the node [k] levels down the index path, at depth
    at most [d], and stops short of [d] only where the path ends. *)
Lemma find_node_spec m fuel node pos d :
  depth_ok m node ->
  depth node <= d ->
  1 <= fuel -> m - depth node <= fuel ->
  exists r k,
    find_node DIM fuel node pos d = Some r /\
    descend DIM node pos k = Some r /\
    depth r = depth node + k /\
    depth r <= d /\
    (depth r < d -> child r (find_index DIM pos r) = None).
Proof.
  revert node. induction fuel as [|fuel IH]; intros node Hok Hd H1 Hf.
  - lia.
  - simpl. destruct (Nat.eqb_spec (depth node) d) as [Ed|Hne].
    + exists node, 0. simpl. repeat split; lia.
    + destruct (child node (find_index DIM pos node)) as [c|] eqn:Ec.
      * destruct (depth_ok_child _ _ _ _ Hok Ec) as (Hc & Hlt & Hokc).
        destruct (IH c Hokc) as (r & k & Er & Ek & Hr & Hrd & Hend);
          [lia | lia | lia |].
        exists r, (S k). simpl. rewrite Ec.
        repeat split; try assumption; lia.
      * exists node, 0. simpl. repeat split; try lia; try reflexivity.
        intros _. exact Ec.
Qed.

End Find.

(** C3.  On a tree obtained from the constructor by [insert] calls, for
    every position (inside the boundary or not) and every depth [d], [find]
    returns a node (never nothing) as soon as the fuel covers [max_depth]
    levels.  The node is the one reached from the root by [depth n] steps of
    quadrant indexing, its depth is at most [d], and when its depth is less
    than [d] the index path ends there; so a node that exists at depth [d]
    on the path is the one returned.  [find(pos)] is [find(pos, max_depth)].  The
    result is a node of the tree given: [find] has no other output. *)
Theorem find_deepest_on_path
  (DIM : nat) (DataType : Type) (DataType_default : DataType)
  (update : DataType -> DataType -> DataType)
  (pmin pmax : PosType) (m fuel0 : nat) (l : list (PosType * DataType))
  (t : Tree DataType) (fuel : nat) (pos : PosType) (d : nat) :
  insert_all DIM update fuel0 (Octree DIM DataType_default pmin pmax m) l
    = Some t ->
  1 <= fuel -> m <= fuel ->
  exists n,
    find_at DIM fuel t pos d = Some n /\
    depth n <= d /\
    descend DIM (root_ t) pos (depth n) = Some n /\
    (depth n < d -> descend DIM (root_ t) pos (depth n + 1) = None) /\
    (forall n', descend DIM (root_ t) pos d = Some n' -> n' = n) /\
    (exists path, node_at (root_ t) path = Some n) /\
    find DIM fuel t pos = find_at DIM fuel t pos (max_depth_ t).
Proof.
  intros E H1 Hf.
  destruct (insert_all_keeps DIM update _ _ _ _ E) as [_ Hm]. simpl in Hm.
  pose proof (insert_all_depth_ok DIM update _ _ _ _
                (Octree_depth_ok DIM DataType_default pmin pmax m) E)
    as [H0 Hok].
  rewrite Hm in Hok.
  destruct (find_node_spec DIM m fuel (root_ t) pos d Hok)
    as (r & k & Er & Ek & Hr & Hrd & Hend); [lia | lia | lia |].
  rewrite H0 in Hr. simpl in Hr. subst k.
  assert (depth r < d -> descend DIM (root_ t) pos (depth r + 1) = None)
    as Hstop.
  { intros Hlt. specialize (Hend Hlt). clear - Ek Hend.
    revert Ek. generalize (root_ t) as node.
    induction (depth r) as [|k IH]; intros node Ek; simpl in *.
    - inversion Ek; subst. now rewrite Hend.
    - destruct (child node (find_index DIM pos node)) as [c|];
        [|discriminate]. now apply IH. }
  exists r. split; [exact Er|]. split; [exact Hrd|].
  split; [exact Ek|]. split; [exact Hstop|]. split.
  - intros n' En'.
    destruct (Nat.eq_dec (depth r) d) as [Ed|Hne].
    + rewrite Ed in Ek. congruence.
    + rewrite (descend_None_ge DIM _ _ (depth r + 1) d) in En';
        [discriminate | apply Hstop; lia | lia].
  - split; [|reflexivity].
    destruct (descend_node_at DIM _ _ _ _ Ek) as (path & _ & Hp).
    now exists path.
Qed.

Lemma find_deepest_on_path_witness :
  exists t,
    insert_all Demo.DIM Demo.sum 4 Demo.quadtree Demo.three = Some t /\
    exists n,
      find_at Demo.DIM 4 t Demo.p25 1 = Some n /\
      depth n <= 1 /\
      descend Demo.DIM (root_ t) Demo.p25 (depth n) = Some n /\
      (depth n < 1 ->
       descend Demo.DIM (root_ t) Demo.p25 (depth n + 1) = None) /\
      (forall n', descend Demo.DIM (root_ t) Demo.p25 1 = Some n' -> n' = n) /\
      (exists path, node_at (root_ t) path = Some n) /\
      find Demo.DIM 4 t Demo.p25 = find_at Demo.DIM 4 t Demo.p25 (max_depth_ t).
Proof.
  run_closed (insert_all Demo.DIM Demo.sum 4 Demo.quadtree Demo.three) t E.
  exists t. split; [reflexivity|].
  apply (find_deepest_on_path Demo.DIM Z 0%Z Demo.sum Demo.pmin Demo.pmax
           4 4 Demo.three t 4 Demo.p25 1 E); lia.
Defined.

(** ** Termination *)

Section Termination.

Context (DIM : nat) {DataType : Type}
        (update : DataType -> DataType -> DataType).

Implicit Types (node c r : Node DataType) (t : Tree DataType).

Lemma insert_node_total fuel t node pos d :
  depth_ok (max_depth_ t) node ->
  depth node < max_depth_ t ->
  max_depth_ t - depth node <= fuel ->
  exists r, insert_node DIM update fuel t node pos d = Some r.
Proof.
  revert node. induction fuel as [|fuel IH]; intros node Hok Hlt Hf.
  - lia.
  - rewrite insert_node_S.
    destruct (Nat.eqb_spec (depth node + 1) (max_depth_ t)) as [E|Hne].
    + now exists node.
    + destruct (next_cell_depth_ok DIM update t node pos d Hok) as [Hc Hd].
      destruct (IH _ Hc) as [c' Ec]; [lia | lia |].
      rewrite Ec. eexists. reflexivity.
Qed.

Lemma insert_total fuel t pos d :
  tree_depth_ok t ->
  1 <= max_depth_ t -> max_depth_ t <= fuel ->
  exists t', insert DIM update fuel t pos d = Some t'.
Proof.
  intros [H0 Hok] H1 Hf. unfold insert.
  destruct (negb (Boundary.is_in DIM (boundary_ t) pos)).
  - now exists t.
  - destruct (insert_node_total fuel t (root_ t) pos d Hok) as [r Er];
      [lia | lia |].
    rewrite Er. eexists. reflexivity.
Qed.

Lemma insert_all_total l fuel t :
  tree_depth_ok t ->
  1 <= max_depth_ t -> max_depth_ t <= fuel ->
  exists t', insert_all DIM update fuel t l = Some t'.
Proof.
  revert t. induction l as [|[pos d] l IH]; intros t Hok H1 Hf; simpl.
  - now exists t.
  - destruct (insert_total fuel t pos d Hok H1 Hf) as [t1 E1]. rewrite E1.
    destruct (insert_keeps DIM update _ _ _ _ _ E1) as [_ Hm].
    apply IH; [|lia|lia].
    eapply insert_depth_ok; eassumption.
Qed.

(** A call that returns has built what it returns. *)
Lemma insert_node_progress_done fuel t node pos d r :
  insert_node DIM update fuel t node pos d = Some r ->
  insert_node_progress DIM update fuel t node pos d = r.
Proof.
  revert node r. induction fuel as [|fuel IH]; intros node r E.
  - discriminate.
  - rewrite insert_node_S in E. simpl.
    destruct (depth node + 1 =? max_depth_ t); [congruence|].
    fold (next_cell DIM update t node pos d).
    destruct (insert_node DIM update fuel t
                (next_cell DIM update t node pos d) pos d) as [c'|] eqn:Ec;
      [|discriminate].
    rewrite (IH _ _ Ec). congruence.
Qed.

(** The loop of [traverse] over the slots returns when every call on a
    child does. *)
Lemma traverse_loop_total {St : Type} (func : Node DataType -> St -> St)
      fuel (slots : list (option (Node DataType))) :
  (forall k c, slots !! k = Some (Some c) ->
     forall s, exists s', traverse func fuel c s = Some s') ->
  forall s, exists s',
    fold_left
      (fun acc slot =>
         match acc, slot with
         | Some s0, Some c => traverse func fuel c s0
         | _, _ => acc
         end)
      slots (Some s) = Some s'.
Proof.
  induction slots as [|slot slots IH]; intros H s; simpl.
  - now exists s.
  - destruct slot as [c|].
    + destruct (H 0 c eq_refl s) as [s1 E1]. rewrite E1.
      apply IH. intros k x Hk. apply (H (S k) x Hk).
    + apply IH. intros k x Hk. apply (H (S k) x Hk).
Qed.

Lemma traverse_total {St : Type} (func : Node DataType -> St -> St)
      m fuel node (s : St) :
  depth_ok m node ->
  1 <= fuel -> m - depth node <= fuel ->
  exists s', traverse func fuel node s = Some s'.
Proof.
  revert node s. induction fuel as [|fuel IH]; intros node s Hok H1 Hf.
  - lia.
  - simpl. apply traverse_loop_total.
    intros k c Hk s0.
    destruct (depth_ok_child m node (Z.of_nat k) c Hok) as (Hd & Hlt & Hc).
    { apply child_Some. now rewrite Nat2Z.id. }
    apply IH; [assumption | lia | lia].
Qed.

End Termination.

(** C4, as amended.  On a tree constructed with [max_depth >= 1], every
    sequence of [insert] calls returns, with fuel for [max_depth] levels,
    and in the tree it leaves a node reached along a path of slots has the
    length of that path as its depth, which is below [max_depth], hence not
    greater; every child is one level below its parent; a node whose depth
    plus one is [max_depth] has no child, and [insert] returns from such a
    node without touching it. *)
Theorem insert_depth_bound
  (DIM : nat) (DataType : Type) (DataType_default : DataType)
  (update : DataType -> DataType -> DataType)
  (pmin pmax : PosType) (m fuel : nat) (l : list (PosType * DataType)) :
  1 <= m -> m <= fuel ->
  exists t,
    insert_all DIM update fuel (Octree DIM DataType_default pmin pmax m) l
      = Some t /\
    max_depth_ t = m /\
    (forall path n, node_at (root_ t) path = Some n ->
       depth n = length path /\
       depth n < m /\
       (forall i c, child n i = Some c -> depth c = depth n + 1) /\
       (depth n + 1 = m -> forall i, child n i = None)) /\
    (forall f node pos d,
       depth node + 1 = m ->
       insert_node DIM update (S f) t node pos d = Some node).
Proof.
  intros H1 Hf.
  destruct (insert_all_total DIM update l fuel
              (Octree DIM DataType_default pmin pmax m)) as [t E];
    [apply Octree_depth_ok | simpl; lia | simpl; lia |].
  exists t. split; [exact E|].
  destruct (insert_all_keeps DIM update _ _ _ _ E) as [_ Hm]. simpl in Hm.
  pose proof (insert_all_depth_ok DIM update _ _ _ _
                (Octree_depth_ok DIM DataType_default pmin pmax m) E)
    as [H0 Hok].
  rewrite Hm in Hok.
  split; [exact Hm|]. split.
  - intros path n En.
    destruct (node_at_depth _ _ _ _ Hok En) as (Hd & Hn & Hb).
    split; [lia|]. split.
    { destruct path as [|i path]; [simpl in Hd; lia|].
      apply Hb. discriminate. }
    split.
    + intros i c Ec. now destruct (depth_ok_child _ _ _ _ Hn Ec).
    + intros Hlast i. destruct (child n i) as [c|] eqn:Ec; [|reflexivity].
      destruct (depth_ok_child _ _ _ _ Hn Ec) as (Hc & Hlt & _). lia.
  - intros f node pos d Hlast. rewrite insert_node_S, Hm.
    apply Nat.eqb_eq in Hlast. now rewrite Hlast.
Qed.

Lemma insert_depth_bound_witness :
  exists t,
    insert_all Demo.DIM Demo.sum 4 Demo.quadtree Demo.three = Some t /\
    max_depth_ t = 4 /\
    (forall path n, node_at (root_ t) path = Some n ->
       depth n = length path /\
       depth n < 4 /\
       (forall i c, child n i = Some c -> depth c = depth n + 1) /\
       (depth n + 1 = 4 -> forall i, child n i = None)) /\
    (forall f node pos d,
       depth node + 1 = 4 ->
       insert_node Demo.DIM Demo.sum (S f) t node pos d = Some node).
Proof.
  apply (insert_depth_bound Demo.DIM Z 0%Z Demo.sum Demo.pmin Demo.pmax 4 4
           Demo.three); lia.
Defined.

(** C4, as stated, fails for [max_depth = 0]: the first activation of
    [insert] on the root finds [0 + 1 == 0] false and stores a child of
    depth 1, above [max_depth]; the call goes on below it and does not
    return. *)
Lemma insert_max_depth_0_deep_node :
  Boundary.is_in Demo.DIM (boundary_ Demo.quadtree0) Demo.p25 = true /\
  exists n,
    child (insert_node_progress Demo.DIM Demo.sum 1 Demo.quadtree0
             (root_ Demo.quadtree0) Demo.p25 1%Z)
          (find_index Demo.DIM Demo.p25 (root_ Demo.quadtree0)) = Some n /\
    depth n = 1 /\
    max_depth_ Demo.quadtree0 < depth n.
Proof.
  split; [reflexivity|].
  eexists. split; [vm_compute; reflexivity|].
  split; [reflexivity | simpl; lia].
Qed.

(** C6, as amended.  On a tree constructed with [max_depth >= 1] and filled
    by [insert] calls, every call of [insert], [find] and [visual] returns,
    and [max_depth] nested activations of the recursive helper are enough;
    [find_boundary] does not recurse. *)
Theorem operations_terminate
  (DIM : nat) (DataType : Type) (DataType_default : DataType)
  (update : DataType -> DataType -> DataType)
  (pmin pmax : PosType) (m fuel0 : nat) (l : list (PosType * DataType))
  (t : Tree DataType) :
  1 <= m ->
  insert_all DIM update fuel0 (Octree DIM DataType_default pmin pmax m) l
    = Some t ->
  (forall pos d, exists t', insert DIM update m t pos d = Some t') /\
  (forall pos k, exists n, find_at DIM m t pos k = Some n) /\
  (forall pos, exists n, find DIM m t pos = Some n) /\
  (forall (St : Type) (func : Node DataType -> St -> St) (s : St),
     exists s', visual func m t s = Some s') /\
  (forall node, exists b, find_boundary t node = b).
Proof.
  intros H1 E.
  destruct (insert_all_keeps DIM update _ _ _ _ E) as [_ Hm]. simpl in Hm.
  pose proof (insert_all_depth_ok DIM update _ _ _ _
                (Octree_depth_ok DIM DataType_default pmin pmax m) E)
    as Hok.
  split; [|split; [|split; [|split]]].
  - intros pos d. apply insert_total; [assumption | lia | lia].
  - intros pos k. destruct Hok as [H0 Hok]. rewrite Hm in Hok.
    destruct (Nat.le_gt_cases (depth (root_ t)) k) as [Hle|Hgt]; [|lia].
    destruct (find_node_spec DIM m m (root_ t) pos k Hok)
      as (r & j & Er & _); [lia | lia | lia |].
    now exists r.
  - intros pos. destruct Hok as [H0 Hok]. rewrite Hm in Hok.
    destruct (find_node_spec DIM m m (root_ t) pos (max_depth_ t) Hok)
      as (r & j & Er & _); [lia | lia | lia |].
    now exists r.
  - intros St func s. destruct Hok as [H0 Hok]. rewrite Hm in Hok.
    apply (traverse_total func m); [assumption | lia | lia].
  - intros node. now eexists.
Qed.

Lemma operations_terminate_witness :
  exists t,
    insert_all Demo.DIM Demo.sum 4 Demo.quadtree Demo.three = Some t /\
    (forall pos d, exists t', insert Demo.DIM Demo.sum 4 t pos d = Some t') /\
    (forall pos k, exists n, find_at Demo.DIM 4 t pos k = Some n) /\
    (forall pos, exists n, find Demo.DIM 4 t pos = Some n) /\
    (forall (St : Type) (func : Node Z -> St -> St) (s : St),
       exists s', visual func 4 t s = Some s') /\
    (forall node, exists b, find_boundary t node = b).
Proof.
  run_closed (insert_all Demo.DIM Demo.sum 4 Demo.quadtree Demo.three) t E.
  exists t. split; [reflexivity|].
  apply (operations_terminate Demo.DIM Z 0%Z Demo.sum Demo.pmin Demo.pmax
           4 4 Demo.three t); [lia | exact E].
Defined.

(** C6, as stated, fails for [max_depth = 0]: the test
    [depth + 1 == max_depth_] is false at the root and at every node below
    it, so [insert] of a position inside the boundary keeps creating
    children and never returns, whatever the number of nested calls
    allowed. *)
Lemma insert_max_depth_0_diverges :
  Boundary.is_in Demo.DIM (boundary_ Demo.quadtree0) Demo.p25 = true /\
  forall fuel,
    insert Demo.DIM Demo.sum fuel Demo.quadtree0 Demo.p25 1%Z = None.
Proof.
  split; [reflexivity|].
  intros fuel. unfold insert.
  replace (Boundary.is_in Demo.DIM (boundary_ Demo.quadtree0) Demo.p25)
    with true by reflexivity.
  cbn [negb].
  rewrite (insert_node_overrun Demo.DIM Demo.sum fuel Demo.quadtree0
             (root_ Demo.quadtree0) Demo.p25 1%Z).
  - reflexivity.
  - apply (Octree_depth_ok Demo.DIM 0%Z Demo.pmin Demo.pmax 0).
  - simpl. lia.
Qed.

(** ** [find_center] *)

Section Centers.

Context (DIM : nat) {DataType : Type}.

Implicit Types (node : Node DataType) (t : Tree DataType).

Lemma at_insert (v : list Q) (i j : nat) (x : Q) :
  at_ (<[i := x]> v) j =
  if decide (i = j /\ i < length v) then x else at_ v j.
Proof.
  unfold at_. rewrite !nth_lookup, list_lookup_insert.
  destruct (decide (i = j /\ i < length v)); reflexivity.
Qed.

(** The centre after the first [n] rounds of the loop of [find_center]:
    axes below [n] have moved, the others have not. *)
Lemma center_loop_spec (pos c0 h : list Q) (n : nat) :
  let c :=
    fold_left
      (fun c i =>
         <[i := if Qgtb (at_ pos i) (at_ c0 i)
                then (at_ c i + at_ h i)%Q
                else (at_ c i - at_ h i)%Q]> c)
      (seq 0 n) c0 in
  length c = length c0 /\
  forall j,
    at_ c j =
    if decide (j < n /\ j < length c0)
    then (if Qgtb (at_ pos j) (at_ c0 j)
          then (at_ c0 j + at_ h j)%Q else (at_ c0 j - at_ h j)%Q)
    else at_ c0 j.
Proof.
  cbv zeta. unfold PosType. induction n as [|n IH].
  - simpl. split; [reflexivity|]. intros j.
    destruct (decide (j < 0 /\ j < length c0)) as [[H _]|_]; [lia|reflexivity].
  - rewrite seq_S, fold_left_app. simpl.
    destruct IH as [Hlen Hat].
    set (c := fold_left _ (seq 0 n) c0) in *.
    split; [now rewrite length_insert|].
    intros j. rewrite at_insert, Hlen.
    destruct (decide (n = j /\ n < length c0)) as [[-> Hn]|Hno].
    + rewrite Hat.
      destruct (decide (j < j /\ j < length c0)) as [[H _]|_]; [lia|].
      destruct (decide (j < S j /\ j < length c0)) as [_|H]; [|lia].
      reflexivity.
    + rewrite Hat.
      destruct (decide (j < n /\ j < length c0)) as [[H1 H2]|H1];
        destruct (decide (j < S n /\ j < length c0)) as [[H3 H4]|H3];
        try reflexivity; lia.
Qed.

Lemma find_center_length t pos node :
  length (find_center DIM t pos node) = length (center node).
Proof.
  apply (center_loop_spec pos (center node)
           (vdiv (Boundary.size (boundary_ t)) (int_shl1 (depth node + 2)))
           DIM).
Qed.

Lemma find_center_at t pos node (j : nat) :
  j < DIM -> j < length (center node) ->
  at_ (find_center DIM t pos node) j =
  let h := at_ (vdiv (Boundary.size (boundary_ t))
                     (int_shl1 (depth node + 2))) j in
  if Qgtb (at_ pos j) (at_ (center node) j)
  then (at_ (center node) j + h)%Q else (at_ (center node) j - h)%Q.
Proof.
  intros Hj Hl.
  destruct (center_loop_spec pos (center node)
              (vdiv (Boundary.size (boundary_ t))
                    (int_shl1 (depth node + 2))) DIM) as [_ Hat].
  unfold find_center. rewrite Hat.
  destruct (decide (j < DIM /\ j < length (center node))) as [_|H]; [|lia].
  reflexivity.
Qed.

(** [find_center] reads the position through the comparisons with the
    centre only. *)
Lemma find_center_cmp t p q node :
  (forall j, j < DIM ->
     Qgtb (at_ p j) (at_ (center node) j) =
     Qgtb (at_ q j) (at_ (center node) j)) ->
  find_center DIM t p node = find_center DIM t q node.
Proof.
  intros H. unfold find_center.
  assert (forall (l : list nat) (c : PosType),
             (forall j, In j l -> j < DIM) ->
             fold_left
               (fun c i =>
                  <[i := if Qgtb (at_ p i) (at_ (center node) i)
                         then (at_ c i + at_ (vdiv (Boundary.size (boundary_ t))
                                 (int_shl1 (depth node + 2))) i)%Q
                         else (at_ c i - at_ (vdiv (Boundary.size (boundary_ t))
                                 (int_shl1 (depth node + 2))) i)%Q]> c) l c =
             fold_left
               (fun c i =>
                  <[i := if Qgtb (at_ q i) (at_ (center node) i)
                         then (at_ c i + at_ (vdiv (Boundary.size (boundary_ t))
                                 (int_shl1 (depth node + 2))) i)%Q
                         else (at_ c i - at_ (vdiv (Boundary.size (boundary_ t))
                                 (int_shl1 (depth node + 2))) i)%Q]> c) l c)
    as Hfold.
  { induction l as [|i l IH]; intros c Hl; simpl; [reflexivity|].
    rewrite (H i) by (apply Hl; now left).
    apply IH. intros j Hj. apply Hl. now right. }
  apply Hfold. intros j Hj. apply in_seq in Hj. lia.
Qed.

Lemma find_center_same_index t p q node :
  DIM <= 30 ->
  find_index DIM p node = find_index DIM q node ->
  find_center DIM t p node = find_center DIM t q node.
Proof.
  intros HD E. apply find_center_cmp. intros j Hj.
  now apply (find_index_eq_cmp DIM p q node j).
Qed.

End Centers.

(** C5.  The index [find_index] computes for a position at a node lies in
    [0, 2^DIM) and its bit [i] is set exactly when [pos[i] > center[i]]; a
    coordinate equal to the centre leaves the bit unset and [find_center]
    then puts the child's centre at [center[i] - half_size[i]].  [insert]
    puts its child in the slot of that index and touches no other slot, and
    [find] steps into the slot of that index. *)
Theorem find_index_bits
  (DIM : nat) (DataType : Type) (pos : PosType) (node : Node DataType) :
  DIM <= 30 ->
  (0 <= find_index DIM pos node < 2 ^ Z.of_nat DIM)%Z /\
  (forall i, i < DIM ->
     (Z.testbit (find_index DIM pos node) (Z.of_nat i) = true <->
      (at_ (center node) i < at_ pos i)%Q)) /\
  (forall i, i < DIM ->
     (at_ pos i == at_ (center node) i)%Q ->
     Z.testbit (find_index DIM pos node) (Z.of_nat i) = false /\
     forall t, i < length (center node) ->
       at_ (find_center DIM t pos node) i =
       (at_ (center node) i -
        at_ (vdiv (Boundary.size (boundary_ t))
                  (int_shl1 (depth node + 2))) i)%Q) /\
  (forall update fuel t d r,
     length (childs node) = child_num_ DIM ->
     depth node + 1 <> max_depth_ t ->
     insert_node DIM update (S fuel) t node pos d = Some r ->
     (exists c, child r (find_index DIM pos node) = Some c) /\
     (forall j, Z.to_nat j <> Z.to_nat (find_index DIM pos node) ->
                child r j = child node j)) /\
  (forall fuel d,
     find_node DIM (S fuel) node pos d =
     if depth node =? d then Some node
     else match child node (find_index DIM pos node) with
          | None => Some node
          | Some c => find_node DIM fuel c pos d
          end).
Proof.
  intros HD.
  split; [now apply find_index_range|].
  split; [|split; [|split]].
  - intros i Hi. rewrite find_index_testbit by assumption.
    apply Nat.ltb_lt in Hi. rewrite Hi. simpl. apply Qgtb_true.
  - intros i Hi Heq.
    assert (Qgtb (at_ pos i) (at_ (center node) i) = false) as Hcmp
        by (apply Qgtb_false; lra).
    split.
    + rewrite find_index_testbit by assumption.
      rewrite Hcmp. apply andb_false_r.
    + intros t Hl. rewrite find_center_at by assumption.
      cbv zeta. now rewrite Hcmp.
  - intros update fuel t d r Hlen Hne Er.
    rewrite insert_node_S in Er.
    destruct (Nat.eqb_spec (depth node + 1) (max_depth_ t)) as [E|_];
      [contradiction|].
    destruct (insert_node DIM update fuel t
                (next_cell DIM update t node pos d) pos d) as [c'|];
      [|discriminate].
    inversion Er; subst r. split.
    + exists c'. apply child_set_child_eq. rewrite Hlen.
      now apply find_index_slot.
    + intros j Hj. apply child_set_child_ne. congruence.
  - reflexivity.
Qed.

Lemma find_index_bits_witness :
  (0 <= find_index Demo.DIM Demo.p25 (root_ Demo.quadtree)
        < 2 ^ Z.of_nat Demo.DIM)%Z /\
  (forall i, i < Demo.DIM ->
     (Z.testbit (find_index Demo.DIM Demo.p25 (root_ Demo.quadtree))
                (Z.of_nat i) = true <->
      (at_ (center (root_ Demo.quadtree)) i < at_ Demo.p25 i)%Q)).
Proof.
  assert (Demo.DIM <= 30) as H by (unfold Demo.DIM; lia).
  pose proof (find_index_bits Demo.DIM Z Demo.p25 (root_ Demo.quadtree) H)
    as (H1 & H2 & _).
  split; [exact H1 | exact H2].
Defined.

(** ** Aggregation along one quadrant path *)

Section Aggregation.

Context (DIM : nat) {DataType : Type} (DataType_default : DataType)
        (update : DataType -> DataType -> DataType).

Implicit Types (node c r : Node DataType) (t : Tree DataType).

Lemma find_index_center (pos : PosType) node node' :
  center node = center node' ->
  find_index DIM pos node = find_index DIM pos node'.
Proof. intros E. unfold find_index. now rewrite E. Qed.

Lemma find_center_cong t t' (pos : PosType) node node' :
  boundary_ t = boundary_ t' ->
  center node = center node' -> depth node = depth node' ->
  find_center DIM t pos node = find_center DIM t' pos node'.
Proof. intros Eb Ec Ed. unfold find_center. now rewrite Eb, Ec, Ed. Qed.

Lemma route_from_cong t t' (pos : PosType) node node' n :
  boundary_ t = boundary_ t' ->
  center node = center node' -> depth node = depth node' ->
  route_from DIM DataType_default t node pos n =
  route_from DIM DataType_default t' node' pos n.
Proof.
  revert node node'. induction n as [|n IH]; intros node node' Eb Ec Ed.
  - reflexivity.
  - simpl. rewrite (find_index_center pos node node' Ec). f_equal.
    apply IH; simpl; [assumption | | lia].
    now apply find_center_cong.
Qed.

Lemma route_from_length t (pos : PosType) node n :
  length (route_from DIM DataType_default t node pos n) = n.
Proof.
  revert node. induction n as [|n IH]; intros node; simpl;
    [reflexivity | now rewrite IH].
Qed.

Lemma chain_tree t t' node (pos : PosType) n (v : DataType) :
  boundary_ t = boundary_ t' ->
  chain DIM t node pos n v -> chain DIM t' node pos n v.
Proof.
  intros Eb. revert node. induction n as [|n IH]; intros node H; simpl in *.
  - exact I.
  - destruct H as (c & Hc & Hctr & Hd & Hv & Hch).
    exists c. split; [assumption|].
    split; [rewrite Hctr; now apply find_center_cong|].
    split; [assumption|]. split; [assumption|]. now apply IH.
Qed.

Lemma insert_node_tree fuel t t' node (pos : PosType) (d : DataType) :
  boundary_ t = boundary_ t' -> max_depth_ t = max_depth_ t' ->
  insert_node DIM update fuel t node pos d =
  insert_node DIM update fuel t' node pos d.
Proof.
  intros Eb Em. revert node. induction fuel as [|fuel IH]; intros node.
  - reflexivity.
  - rewrite !insert_node_S, Em.
    destruct (depth node + 1 =? max_depth_ t'); [reflexivity|].
    unfold next_cell.
    rewrite (find_center_cong t t' pos node node Eb eq_refl eq_refl).
    now rewrite IH.
Qed.

(** The first insertion below a node without children creates the whole
    chain of cells, each holding the inserted value. *)
Lemma insert_node_first n fuel t node (pos : PosType) (v : DataType) :
  DIM <= 30 ->
  (forall i, child node i = None) ->
  length (childs node) = child_num_ DIM ->
  depth node + n + 1 = max_depth_ t ->
  n + 1 <= fuel ->
  exists r,
    insert_node DIM update fuel t node pos v = Some r /\
    center r = center node /\ depth r = depth node /\ data r = data node /\
    chain DIM t r pos n v.
Proof.
  intros HD. revert fuel node.
  induction n as [|n IH]; intros fuel node Hbare Hlen Hm Hf;
    (destruct fuel as [|fuel]; [lia|]); rewrite insert_node_S.
  - replace (depth node + 1 =? max_depth_ t) with true
      by (symmetry; apply Nat.eqb_eq; lia).
    exists node. repeat split.
  - replace (depth node + 1 =? max_depth_ t) with false
      by (symmetry; apply Nat.eqb_neq; lia).
    unfold next_cell. rewrite Hbare.
    destruct (IH fuel
                (new_Node DIM (find_center DIM t pos node) v (depth node + 1)))
      as (c' & Ec' & Hctr & Hd & Hv & Hch).
    + intros i. apply child_new_Node.
    + simpl. apply length_replicate.
    + simpl. lia.
    + lia.
    + rewrite Ec'. eexists. split; [reflexivity|].
      split; [reflexivity|]. split; [reflexivity|]. split; [reflexivity|].
      exists c'. split.
      { apply child_set_child_eq. rewrite Hlen.
        now apply find_index_slot. }
      split; [exact Hctr|]. split; [exact Hd|]. split; [exact Hv|].
      exact Hch.
Qed.

(** A later insertion along the same quadrant path finds every cell of the
    chain and updates its data. *)
Lemma insert_node_next n fuel t node (p q : PosType) (v w : DataType) :
  DIM <= 30 ->
  chain DIM t node p n v ->
  route_from DIM DataType_default t node q n =
  route_from DIM DataType_default t node p n ->
  depth node + n + 1 = max_depth_ t ->
  n + 1 <= fuel ->
  exists r,
    insert_node DIM update fuel t node q w = Some r /\
    center r = center node /\ depth r = depth node /\ data r = data node /\
    chain DIM t r p n (update v w).
Proof.
  intros HD. revert fuel node v.
  induction n as [|n IH]; intros fuel node v Hch Hroute Hm Hf;
    (destruct fuel as [|fuel]; [lia|]); rewrite insert_node_S.
  - replace (depth node + 1 =? max_depth_ t) with true
      by (symmetry; apply Nat.eqb_eq; lia).
    exists node. repeat split.
  - replace (depth node + 1 =? max_depth_ t) with false
      by (symmetry; apply Nat.eqb_neq; lia).
    simpl in Hch. destruct Hch as (c & Hc & Hctr & Hd & Hv & Hch).
    simpl in Hroute. inversion Hroute as [[Hidx Htail]]. clear Hroute.
    assert (find_center DIM t q node = find_center DIM t p node) as Hfc
        by (now apply find_center_same_index).
    unfold next_cell. rewrite Hidx, Hc.
    destruct (IH fuel (set_data c (update (data c) w)) v)
      as (c' & Ec' & Hctr' & Hd' & Hv' & Hch').
    + destruct n; exact Hch.
    + rewrite (route_from_cong t t q (set_data c (update (data c) w))
                 (new_Node DIM (find_center DIM t q node) DataType_default
                           (depth node + 1)) n eq_refl)
        by (simpl; congruence).
      rewrite Htail.
      apply route_from_cong; simpl; congruence.
    + simpl. lia.
    + lia.
    + rewrite Ec'. eexists. split; [reflexivity|].
      split; [reflexivity|]. split; [reflexivity|]. split; [reflexivity|].
      exists c'. split.
      { apply child_set_child_eq. apply child_Some in Hc.
        now apply lookup_lt_Some in Hc. }
      split; [simpl in Hctr'; rewrite Hctr'; exact Hctr|].
      split; [simpl in Hd'; simpl; lia|].
      split; [simpl in Hv'; rewrite Hv', Hv; reflexivity|].
      exact Hch'.
Qed.

(** The nodes of a chain, read along the quadrant path. *)
Lemma chain_node_at t node (pos : PosType) n (v : DataType) k :
  chain DIM t node pos n v ->
  1 <= k <= n ->
  exists x,
    node_at node (take k (route_from DIM DataType_default t node pos n))
      = Some x /\
    depth x = depth node + k /\ data x = v.
Proof.
  revert node k. induction n as [|n IH]; intros node k Hch Hk; [lia|].
  simpl in Hch. destruct Hch as (c & Hc & Hctr & Hd & Hv & Hch).
  destruct k as [|k]; [lia|]. simpl. rewrite Hc.
  rewrite (route_from_cong t t pos
             (new_Node DIM (find_center DIM t pos node) DataType_default
                       (depth node + 1)) c n eq_refl)
    by (simpl; congruence).
  destruct k as [|k].
  - exists c. simpl. repeat split; [lia | assumption].
  - destruct (IH c (S k) Hch) as (x & Hx & Hdx & Hvx); [lia|].
    exists x. split; [exact Hx|]. split; [lia | assumption].
Qed.

End Aggregation.

Section AggregationRuns.

Context (DIM : nat) {DataType : Type} (DataType_default : DataType)
        (update : DataType -> DataType -> DataType).

Implicit Types (t : Tree DataType).

(** Insertions that follow the quadrant path of [p1] fold their values into
    every cell of its chain. *)
Lemma insert_all_chain (rest : list (PosType * DataType)) :
  forall t (v : DataType) (p1 : PosType) (fuel : nat),
  DIM <= 30 ->
  depth (root_ t) = 0 ->
  1 <= max_depth_ t -> max_depth_ t <= fuel ->
  chain DIM t (root_ t) p1 (max_depth_ t - 1) v ->
  (forall q w, In (q, w) rest ->
     Boundary.is_in DIM (boundary_ t) q = true /\
     route DIM DataType_default t q = route DIM DataType_default t p1) ->
  exists t',
    insert_all DIM update fuel t rest = Some t' /\
    data (root_ t') = data (root_ t) /\
    boundary_ t' = boundary_ t /\
    max_depth_ t' = max_depth_ t /\
    center (root_ t') = center (root_ t) /\
    depth (root_ t') = 0 /\
    chain DIM t' (root_ t') p1 (max_depth_ t - 1)
          (fold_left update (map snd rest) v).
Proof.
  induction rest as [|[q w] rest IH]; intros t v p1 fuel HD H0 H1 Hf Hch Hall.
  - exists t. simpl. repeat split; assumption.
  - destruct (Hall q w) as [Hin Hroute]; [now left|].
    simpl. unfold insert. rewrite Hin. cbn [negb].
    destruct (insert_node_next DIM DataType_default update
                (max_depth_ t - 1) fuel t (root_ t) p1 q v w HD Hch Hroute)
      as (r & Er & Hctr & Hd & Hv & Hch'); [lia | lia |].
    rewrite Er.
    destruct (IH (Build_Tree (boundary_ t) (max_depth_ t) r)
                 (update v w) p1 fuel HD)
      as (t' & Et' & Hdata & Hb & Hm & Hc & Hd0 & Hchain).
    + simpl. lia.
    + simpl. lia.
    + simpl. lia.
    + simpl. apply (chain_tree DIM t); [reflexivity | exact Hch'].
    + intros q' w' Hq'. destruct (Hall q' w') as [Hin' Hroute'];
        [now right|].
      split; [exact Hin'|].
      unfold route in *. simpl.
      rewrite (route_from_cong DIM DataType_default
                 (Build_Tree (boundary_ t) (max_depth_ t) r) t q' r (root_ t)
                 (max_depth_ t - 1) eq_refl Hctr Hd).
      rewrite (route_from_cong DIM DataType_default
                 (Build_Tree (boundary_ t) (max_depth_ t) r) t p1 r (root_ t)
                 (max_depth_ t - 1) eq_refl Hctr Hd).
      exact Hroute'.
    + exists t'. simpl in *. rewrite Et'.
      split; [reflexivity|]. split; [congruence|]. split; [assumption|].
      split; [assumption|]. split; [congruence|]. split; [assumption|].
      exact Hchain.
Qed.

End AggregationRuns.

(** The run of insertions along one quadrant path, with fuel for
    [max_depth] levels. *)
Lemma insert_same_path_run
  (DIM : nat) (DataType : Type) (DataType_default : DataType)
  (update : DataType -> DataType -> DataType)
  (pmin pmax : PosType) (m fuel : nat)
  (p1 : PosType) (v1 : DataType) (rest : list (PosType * DataType))
  (path : list Z) :
  DIM <= 30 -> 1 <= m -> m <= fuel ->
  (forall q w, In (q, w) ((p1, v1) :: rest) ->
     Boundary.is_in DIM (Boundary.Build pmin pmax) q = true /\
     route DIM DataType_default
           (Octree DIM DataType_default pmin pmax m) q = path) ->
  exists t',
    insert_all DIM update fuel (Octree DIM DataType_default pmin pmax m)
               ((p1, v1) :: rest) = Some t' /\
    (forall j tj,
       insert_all DIM update fuel (Octree DIM DataType_default pmin pmax m)
                  (take j ((p1, v1) :: rest)) = Some tj ->
       data (root_ tj) = DataType_default) /\
    length path = m - 1 /\
    forall k, 1 <= k <= length path ->
      exists n,
        node_at (root_ t') (take k path) = Some n /\
        depth n = k /\
        data n = fold_left update (map snd rest) v1 /\
        ((forall v, update DataType_default v = v) ->
         data n = fold_left update (map snd ((p1, v1) :: rest))
                            DataType_default).
Proof.
  intros HD H1 Hf Hall.
  set (t0 := Octree DIM DataType_default pmin pmax m) in *.
  destruct (Hall p1 v1) as [Hin1 Hpath1]; [now left|].
  destruct (insert_node_first DIM update (m - 1) fuel t0 (root_ t0) p1 v1 HD)
    as (r & Er & Hctr & Hd & Hv & Hch).
  { intros i. apply child_new_Node. }
  { simpl. apply length_replicate. }
  { simpl. lia. }
  { lia. }
  destruct (insert_all_chain DIM DataType_default update rest
              (Build_Tree (boundary_ t0) (max_depth_ t0) r) v1 p1 fuel HD)
    as (t' & Et' & Hdata & Hb & Hm & Hc & Hd0 & Hchain).
  { simpl. simpl in Hd. lia. }
  { simpl. lia. }
  { simpl. lia. }
  { simpl. apply (chain_tree DIM t0); [reflexivity | exact Hch]. }
  { intros q w Hq. destruct (Hall q w) as [Hinq Hpathq]; [now right|].
    split; [exact Hinq|].
    unfold route in *. simpl.
    transitivity path.
    - rewrite <- Hpathq.
      apply route_from_cong; [reflexivity | exact Hctr | exact Hd].
    - rewrite <- Hpath1. symmetry.
      apply route_from_cong; [reflexivity | exact Hctr | exact Hd]. }
  exists t'. split.
  { simpl. unfold insert. simpl boundary_. rewrite Hin1. cbn [negb].
    rewrite Er. exact Et'. }
  split.
  { intros j tj Ej.
    exact (insert_all_root_data DIM update _ _ _ _ Ej). }
  assert (length path = m - 1) as Hlen.
  { rewrite <- Hpath1. unfold route. apply route_from_length. }
  split; [exact Hlen|].
  intros k Hk. simpl in Hchain.
  destruct (chain_node_at DIM DataType_default t' (root_ t') p1 (m - 1)
              (fold_left update (map snd rest) v1) k Hchain)
    as (n & Hn & Hdn & Hvn); [lia|].
  exists n.
  rewrite (route_from_cong DIM DataType_default t' t0 p1 (root_ t')
             (root_ t0) (m - 1)) in Hn.
  - unfold route in Hpath1. simpl in Hpath1. simpl in Hn.
    rewrite Hpath1 in Hn.
    split; [exact Hn|]. split; [lia|]. split; [exact Hvn|].
    intros Hid. simpl. rewrite Hid. exact Hvn.
  - simpl in Hb. exact Hb.
  - simpl in Hc. congruence.
  - simpl. lia.
Qed.

(** C1, as amended.  Take a tree fresh from the constructor and insert
    values [v1, ..., vn] at positions inside the boundary that all have the
    same leaf quadrant path.  The calls return when [max_depth >= 1] and the
    fuel covers [max_depth] levels, and whenever they return, the root has
    kept its default data after every one of them, and every node of the
    path below the root exists and holds
    [update(... update(update(v1, v2), v3) ..., vn)]: the first value is
    stored as it is and the later ones are combined into it.  Whenever
    [update(default, v) = v] (as for the default sum with a zero default)
    this is the fold of all the values from the default. *)
Theorem insert_same_path_aggregates
  (DIM : nat) (DataType : Type) (DataType_default : DataType)
  (update : DataType -> DataType -> DataType)
  (pmin pmax : PosType) (m fuel : nat)
  (p1 : PosType) (v1 : DataType) (rest : list (PosType * DataType))
  (path : list Z) :
  DIM <= 30 ->
  (forall q w, In (q, w) ((p1, v1) :: rest) ->
     Boundary.is_in DIM (Boundary.Build pmin pmax) q = true /\
     route DIM DataType_default
           (Octree DIM DataType_default pmin pmax m) q = path) ->
  (1 <= m -> m <= fuel ->
   exists t',
     insert_all DIM update fuel (Octree DIM DataType_default pmin pmax m)
                ((p1, v1) :: rest) = Some t') /\
  forall t',
    insert_all DIM update fuel (Octree DIM DataType_default pmin pmax m)
               ((p1, v1) :: rest) = Some t' ->
    (forall j tj,
       insert_all DIM update fuel (Octree DIM DataType_default pmin pmax m)
                  (take j ((p1, v1) :: rest)) = Some tj ->
       data (root_ tj) = DataType_default) /\
    length path = m - 1 /\
    forall k, 1 <= k <= length path ->
      exists n,
        node_at (root_ t') (take k path) = Some n /\
        depth n = k /\
        data n = fold_left update (map snd rest) v1 /\
        ((forall v, update DataType_default v = v) ->
         data n = fold_left update (map snd ((p1, v1) :: rest))
                            DataType_default).
Proof.
  intros HD Hall. split.
  - intros H1 Hf.
    destruct (insert_same_path_run DIM DataType DataType_default update
                pmin pmax m fuel p1 v1 rest path HD H1 Hf Hall)
      as (t' & Et' & _).
    now exists t'.
  - intros t' Et'.
    assert (1 <= m) as H1.
    { destruct m as [|m]; [exfalso | lia].
      destruct (Hall p1 v1) as [Hin1 _]; [now left|].
      simpl in Et'. unfold insert in Et'. simpl boundary_ in Et'.
      rewrite Hin1 in Et'. cbn [negb] in Et'.
      rewrite (insert_node_overrun DIM update) in Et'; [discriminate | |].
      - apply (Octree_depth_ok DIM DataType_default pmin pmax 0).
      - simpl. lia. }
    destruct (insert_same_path_run DIM DataType DataType_default update
                pmin pmax m (Nat.max fuel m) p1 v1 rest path HD H1
                (Nat.le_max_r fuel m) Hall)
      as (t'' & Et'' & _ & Hlen & Hnodes).
    rewrite (insert_all_fuel_mono DIM update _ fuel (Nat.max fuel m) _ t' Et'
               (Nat.le_max_l fuel m)) in Et''.
    inversion Et''; subst t''.
    split.
    { intros j tj Ej.
      exact (insert_all_root_data DIM update _ _ _ _ Ej). }
    split; [exact Hlen | exact Hnodes].
Qed.

Lemma insert_same_path_aggregates_witness :
  (1 <= 4 -> 4 <= 4 ->
   exists t',
     insert_all Demo.DIM Demo.sum 4 Demo.quadtree Demo.three = Some t') /\
  forall t',
    insert_all Demo.DIM Demo.sum 4 Demo.quadtree Demo.three = Some t' ->
    (forall j tj,
       insert_all Demo.DIM Demo.sum 4 Demo.quadtree (take j Demo.three)
         = Some tj ->
       data (root_ tj) = 0%Z) /\
    length [0%Z; 0%Z; 3%Z] = 4 - 1 /\
    forall k, 1 <= k <= length [0%Z; 0%Z; 3%Z] ->
      exists n,
        node_at (root_ t') (take k [0%Z; 0%Z; 3%Z]) = Some n /\
        depth n = k /\
        data n = fold_left Demo.sum (map snd (tail Demo.three)) 1%Z /\
        ((forall v, Demo.sum 0%Z v = v) ->
         data n = fold_left Demo.sum (map snd Demo.three) 0%Z).
Proof.
  apply (insert_same_path_aggregates Demo.DIM Z 0%Z Demo.sum
           Demo.pmin Demo.pmax 4 4 Demo.p25 1%Z (tail Demo.three)
           [0%Z; 0%Z; 3%Z]).
  - unfold Demo.DIM. lia.
  - intros q w Hq. simpl in Hq.
    destruct Hq as [Hq|[Hq|[Hq|[]]]]; inversion Hq; subst;
      split; reflexivity.
Defined.

(** C1, as stated, fails for an overriding [update] that does not have the
    default as a left identity.  With the product of the values as [update]
    and one insertion of 5 at (25,25) into a tree of depth 2, the node below
    the root holds 5, while the fold from the default is [0 * 5 = 0]. *)
Lemma insert_first_value_not_combined :
  exists t' n,
    Boundary.is_in Demo.DIM (boundary_ Demo.quadtree2) Demo.p25 = true /\
    insert_all Demo.DIM Demo.product 2 Demo.quadtree2 [(Demo.p25, 5%Z)]
      = Some t' /\
    node_at (root_ t') (route Demo.DIM 0%Z Demo.quadtree2 Demo.p25) = Some n /\
    depth n = 1 /\
    data n = 5%Z /\
    fold_left Demo.product [5%Z] 0%Z = 0%Z /\
    data n <> fold_left Demo.product [5%Z] 0%Z.
Proof.
  destruct (insert_all Demo.DIM Demo.product 2 Demo.quadtree2
              [(Demo.p25, 5%Z)]) as [t'|] eqn:E;
    [|vm_compute in E; discriminate].
  vm_compute in E. inversion E; subst t'; clear E.
  eexists. eexists.
  split; [reflexivity|]. split; [reflexivity|].
  split; [vm_compute; reflexivity|].
  split; [reflexivity|]. split; [reflexivity|]. split; [reflexivity|].
  simpl. discriminate.
Qed.

(** ** Regions *)

Section Vectors.

Lemma nth_zip_with (f : Q -> Q -> Q) (a b : list Q) (i : nat) :
  i < length a -> i < length b ->
  nth i (zip_with f a b) 0%Q = f (nth i a 0%Q) (nth i b 0%Q).
Proof.
  revert b i. induction a as [|x a IH]; intros b i Ha Hb; simpl in *; [lia|].
  destruct b as [|y b]; simpl in *; [lia|].
  destruct i as [|i]; [reflexivity|].
  apply IH; lia.
Qed.

Lemma at_vsub (a b : PosType) (i : nat) :
  i < length a -> i < length b ->
  at_ (vsub a b) i = (at_ a i - at_ b i)%Q.
Proof. apply nth_zip_with. Qed.

Lemma at_vadd (a b : PosType) (i : nat) :
  i < length a -> i < length b ->
  at_ (vadd a b) i = (at_ a i + at_ b i)%Q.
Proof. apply nth_zip_with. Qed.

Lemma at_vdiv (v : PosType) (k : Z) (i : nat) :
  i < length v ->
  at_ (vdiv v k) i = (at_ v i / inject_Z k)%Q.
Proof.
  intros H. unfold at_, vdiv.
  rewrite (nth_indep _ 0%Q (0 / inject_Z k)%Q)
    by (now rewrite length_map).
  apply (map_nth (fun x => (x / inject_Z k)%Q)).
Qed.

Lemma length_vsub (a b : PosType) (n : nat) :
  n <= length a -> n <= length b -> n <= length (vsub a b).
Proof. intros. unfold vsub. rewrite length_zip_with. lia. Qed.

Lemma length_vadd (a b : PosType) (n : nat) :
  n <= length a -> n <= length b -> n <= length (vadd a b).
Proof. intros. unfold vadd. rewrite length_zip_with. lia. Qed.

Lemma length_vdiv (v : PosType) (k : Z) : length (vdiv v k) = length v.
Proof. apply length_map. Qed.

Lemma inject_Z_pow2_pos (k : nat) : (0 < inject_Z (2 ^ Z.of_nat k))%Q.
Proof.
  change 0%Q with (inject_Z 0). rewrite <- Zlt_Qlt.
  apply Z.pow_pos_nonneg; lia.
Qed.

Lemma inject_Z_pow2_succ (k : nat) :
  (inject_Z (2 ^ Z.of_nat (S k)) == 2 * inject_Z (2 ^ Z.of_nat k))%Q.
Proof.
  rewrite Nat2Z.inj_succ, Z.pow_succ_r by lia.
  rewrite inject_Z_mult. reflexivity.
Qed.

(** Halving: [s / 2^(k+1)] is half of [s / 2^k]. *)
Lemma half_of_half (s : Q) (k : nat) :
  (s / inject_Z (2 ^ Z.of_nat k) ==
   2 * (s / inject_Z (2 ^ Z.of_nat (S k))))%Q.
Proof.
  pose proof (inject_Z_pow2_pos k) as Hp.
  rewrite inject_Z_pow2_succ. field. lra.
Qed.

End Vectors.

Section Regions.

Context (DIM : nat) {DataType : Type}.

Implicit Types (node cell : Node DataType) (t : Tree DataType).

Lemma find_boundary_at t node (i : nat) :
  i < length (center node) -> i < length (Boundary.size (boundary_ t)) ->
  at_ (Boundary.min (find_boundary t node)) i =
    (at_ (center node) i -
     at_ (Boundary.size (boundary_ t)) i
       / inject_Z (int_shl1 (depth node + 1)))%Q /\
  at_ (Boundary.max (find_boundary t node)) i =
    (at_ (center node) i +
     at_ (Boundary.size (boundary_ t)) i
       / inject_Z (int_shl1 (depth node + 1)))%Q.
Proof.
  intros Hc Hs. unfold find_boundary. simpl.
  rewrite at_vsub, at_vadd, at_vdiv;
    try assumption; try (now rewrite length_vdiv).
  split; reflexivity.
Qed.

(** The bounds, on axis [i], of a node and of the cell one level down that
    [find_center] places for [pos], while the shifts fit in an [int]:
    with [h = size[i] / 2^(depth + 2)], the node spans [center -/+ 2h] and
    the cell spans [center, center + 2h] or [center - 2h, center]. *)
Lemma cell_bounds t node cell (pos : PosType) (i : nat) :
  depth node + 2 < 31 ->
  i < DIM ->
  DIM <= length (center node) ->
  DIM <= length (Boundary.size (boundary_ t)) ->
  center cell = find_center DIM t pos node ->
  depth cell = depth node + 1 ->
  exists h : Q,
    (at_ (Boundary.min (find_boundary t node)) i ==
       at_ (center node) i - 2 * h)%Q /\
    (at_ (Boundary.max (find_boundary t node)) i ==
       at_ (center node) i + 2 * h)%Q /\
    (if Qgtb (at_ pos i) (at_ (center node) i)
     then (at_ (Boundary.min (find_boundary t cell)) i ==
             at_ (center node) i)%Q /\
          (at_ (Boundary.max (find_boundary t cell)) i ==
             at_ (center node) i + 2 * h)%Q
     else (at_ (Boundary.min (find_boundary t cell)) i ==
             at_ (center node) i - 2 * h)%Q /\
          (at_ (Boundary.max (find_boundary t cell)) i ==
             at_ (center node) i)%Q).
Proof.
  intros Hsh Hi Hlc Hls Hctr Hd.
  exists (at_ (Boundary.size (boundary_ t)) i
            / inject_Z (2 ^ Z.of_nat (S (depth node + 1))))%Q.
  destruct (find_boundary_at t node i) as [Hmin Hmax]; [lia | lia |].
  destruct (find_boundary_at t cell i) as [Hcmin Hcmax];
    [rewrite Hctr, find_center_length; lia | lia |].
  rewrite Hmin, Hmax, Hcmin, Hcmax, Hd, Hctr.
  rewrite (find_center_at DIM t pos node i) by lia. cbv zeta.
  rewrite at_vdiv by lia.
  replace (depth node + 1 + 1) with (S (depth node + 1)) by lia.
  replace (depth node + 2) with (S (depth node + 1)) by lia.
  rewrite !int_shl1_small by lia.
  pose proof (half_of_half (at_ (Boundary.size (boundary_ t)) i)
                (depth node + 1)) as Hhalf.
  set (h1 := (at_ (Boundary.size (boundary_ t)) i
                / inject_Z (2 ^ Z.of_nat (depth node + 1)))%Q) in *.
  set (h2 := (at_ (Boundary.size (boundary_ t)) i
                / inject_Z (2 ^ Z.of_nat (S (depth node + 1))))%Q) in *.
  split; [lra|]. split; [lra|].
  destruct (Qgtb (at_ pos i) (at_ (center node) i)); split; lra.
Qed.

(** The region of a cell lies inside the region of its parent. *)
Lemma cell_in_parent t node cell (pos p : PosType) :
  depth node + 2 < 31 ->
  DIM <= length (center node) ->
  DIM <= length (Boundary.size (boundary_ t)) ->
  center cell = find_center DIM t pos node ->
  depth cell = depth node + 1 ->
  In_region DIM (find_boundary t cell) p ->
  In_region DIM (find_boundary t node) p.
Proof.
  intros Hsh Hlc Hls Hctr Hd Hin i Hi.
  destruct (cell_bounds t node cell pos i Hsh Hi Hlc Hls Hctr Hd)
    as (h & Hmin & Hmax & Hcell).
  destruct (Hin i Hi) as [Hlo Hhi].
  destruct (Qgtb (at_ pos i) (at_ (center node) i));
    destruct Hcell as [Hcmin Hcmax]; split; lra.
Qed.

(** A position of the parent's region lies in the region of the cell it is
    routed to: the cells leave no gap. *)
Lemma parent_in_cell t node cell (p : PosType) :
  depth node + 2 < 31 ->
  DIM <= length (center node) ->
  DIM <= length (Boundary.size (boundary_ t)) ->
  center cell = find_center DIM t p node ->
  depth cell = depth node + 1 ->
  In_region DIM (find_boundary t node) p ->
  In_region DIM (find_boundary t cell) p.
Proof.
  intros Hsh Hlc Hls Hctr Hd Hin i Hi.
  destruct (cell_bounds t node cell p i Hsh Hi Hlc Hls Hctr Hd)
    as (h & Hmin & Hmax & Hcell).
  destruct (Hin i Hi) as [Hlo Hhi].
  destruct (Qgtb (at_ p i) (at_ (center node) i)) eqn:E;
    destruct Hcell as [Hcmin Hcmax].
  - apply Qgtb_true in E. split; lra.
  - apply Qgtb_false in E. split; lra.
Qed.

(** Positions that compare alike with the centre have the same index. *)
Lemma find_index_cmp (p q : PosType) node :
  (forall j, j < DIM ->
     Qgtb (at_ p j) (at_ (center node) j) =
     Qgtb (at_ q j) (at_ (center node) j)) ->
  find_index DIM p node = find_index DIM q node.
Proof.
  intros H. unfold find_index.
  assert (forall (l : list nat) (a : Z),
             (forall j, In j l -> j < DIM) ->
             fold_left
               (fun index i =>
                  if Qgtb (at_ p i) (at_ (center node) i)
                  then Z.lor index (int_shl1 i) else index) l a =
             fold_left
               (fun index i =>
                  if Qgtb (at_ q i) (at_ (center node) i)
                  then Z.lor index (int_shl1 i) else index) l a) as Hfold.
  { induction l as [|i l IH]; intros a Hl; simpl; [reflexivity|].
    rewrite (H i) by (apply Hl; now left).
    apply IH. intros j Hj. apply Hl. now right. }
  apply Hfold. intros j Hj. apply in_seq in Hj. lia.
Qed.

(** A position strictly inside the region of the cell of [q] is routed to
    that cell: the cells overlap on their faces only. *)
Lemma interior_same_index t node cell (q p : PosType) :
  depth node + 2 < 31 ->
  DIM <= length (center node) ->
  DIM <= length (Boundary.size (boundary_ t)) ->
  center cell = find_center DIM t q node ->
  depth cell = depth node + 1 ->
  In_interior DIM (find_boundary t cell) p ->
  find_index DIM p node = find_index DIM q node.
Proof.
  intros Hsh Hlc Hls Hctr Hd Hin. apply find_index_cmp. intros i Hi.
  destruct (cell_bounds t node cell q i Hsh Hi Hlc Hls Hctr Hd)
    as (h & Hmin & Hmax & Hcell).
  destruct (Hin i Hi) as [Hlo Hhi].
  destruct (Qgtb (at_ q i) (at_ (center node) i)) eqn:E;
    destruct Hcell as [Hcmin Hcmax].
  - apply Qgtb_true. lra.
  - apply Qgtb_false. lra.
Qed.

End Regions.

(** ** The geometric invariant *)

Section Geometry.

Context (DIM : nat) {DataType : Type} (DataType_default : DataType)
        (update : DataType -> DataType -> DataType).

Implicit Types (node c r : Node DataType) (t : Tree DataType).

Lemma geom_ok_tree t t' node :
  boundary_ t = boundary_ t' -> geom_ok DIM t node -> geom_ok DIM t' node.
Proof.
  intros Eb H. induction H as [n Hlen Hslot _ IH].
  constructor; [assumption | | assumption].
  intros k c Hk. destruct (Hslot k c Hk) as (pos & Hpos & Hctr & Hd).
  exists pos. split; [assumption|]. split; [|assumption].
  rewrite Hctr. now apply find_center_cong.
Qed.

Lemma geom_ok_new_Node t (p : PosType) (d : DataType) (k : nat) :
  DIM <= length p -> geom_ok DIM t (new_Node DIM p d k).
Proof.
  intros H. constructor; [exact H | |];
    intros j c Hj; exfalso; eapply childs_new_Node; exact Hj.
Qed.

Lemma geom_ok_set_data t node (d : DataType) :
  geom_ok DIM t node -> geom_ok DIM t (set_data node d).
Proof.
  intros H. inversion H as [n H1 H2 H3]; subst.
  constructor; assumption.
Qed.

Lemma geom_ok_child t node i c :
  geom_ok DIM t node -> child node i = Some c ->
  (exists pos,
      Z.to_nat i = Z.to_nat (find_index DIM pos node) /\
      center c = find_center DIM t pos node /\
      depth c = depth node + 1) /\
  geom_ok DIM t c.
Proof.
  intros H E. apply child_Some in E.
  inversion H as [n H1 H2 H3]; subst.
  split; [exact (H2 _ _ E) | exact (H3 _ _ E)].
Qed.

Lemma geom_ok_length t node : geom_ok DIM t node -> DIM <= length (center node).
Proof. intros H. now inversion H. Qed.

Lemma next_cell_geom_ok t node (pos : PosType) (d : DataType) :
  geom_ok DIM t node ->
  geom_ok DIM t (next_cell DIM update t node pos d) /\
  exists pos0,
    Z.to_nat (find_index DIM pos node) = Z.to_nat (find_index DIM pos0 node) /\
    center (next_cell DIM update t node pos d) = find_center DIM t pos0 node /\
    depth (next_cell DIM update t node pos d) = depth node + 1.
Proof.
  intros H. unfold next_cell.
  destruct (child node (find_index DIM pos node)) as [c0|] eqn:E.
  - destruct (geom_ok_child _ _ _ _ H E) as [(pos0 & Hp & Hc & Hd) Hok].
    split; [now apply geom_ok_set_data|].
    exists pos0. simpl. auto.
  - split.
    + apply geom_ok_new_Node. rewrite find_center_length.
      now apply geom_ok_length with t.
    + exists pos. simpl. auto.
Qed.

Lemma insert_node_geom_ok fuel t node (pos : PosType) (d : DataType) r :
  geom_ok DIM t node ->
  insert_node DIM update fuel t node pos d = Some r ->
  geom_ok DIM t r /\ center r = center node /\ depth r = depth node.
Proof.
  revert node r. induction fuel as [|fuel IH]; intros node r Hok E.
  - discriminate.
  - rewrite insert_node_S in E.
    destruct (depth node + 1 =? max_depth_ t).
    + inversion E; subst. auto.
    + destruct (next_cell_geom_ok t node pos d Hok)
        as (Hc & pos0 & Hp & Hctr & Hd).
      destruct (insert_node DIM update fuel t
                  (next_cell DIM update t node pos d) pos d)
        as [c'|] eqn:Ec; [|discriminate].
      inversion E; subst r; clear E.
      destruct (IH _ _ Hc Ec) as (Hc' & Hctr' & Hd').
      split; [|split; reflexivity].
      inversion Hok as [n H1 H2 H3]; subst.
      constructor.
      * exact H1.
      * intros k x Hk. apply childs_set_child_Some in Hk.
        destruct Hk as [[-> ->]|Hk].
        -- exists pos0. split; [exact Hp|].
           split; [rewrite Hctr'; exact Hctr | rewrite Hd'; exact Hd].
        -- exact (H2 _ _ Hk).
      * intros k x Hk. apply childs_set_child_Some in Hk.
        destruct Hk as [[-> ->]|Hk]; [exact Hc' | exact (H3 _ _ Hk)].
Qed.

Lemma Octree_geom_ok (pmin pmax : PosType) (m : nat) :
  DIM <= length pmin -> DIM <= length pmax ->
  tree_geom_ok DIM (Octree DIM DataType_default pmin pmax m).
Proof.
  intros Hmin Hmax. unfold tree_geom_ok. simpl.
  split; [reflexivity|]. split; [reflexivity|].
  split; [now apply length_vsub|].
  apply geom_ok_new_Node. unfold Boundary.center. rewrite length_vdiv.
  now apply length_vadd.
Qed.

Lemma insert_geom_ok t fuel (pos : PosType) (d : DataType) t' :
  tree_geom_ok DIM t ->
  insert DIM update fuel t pos d = Some t' ->
  tree_geom_ok DIM t'.
Proof.
  intros (Hc & Hd & Hs & Hok) E. unfold insert in E.
  destruct (negb (Boundary.is_in DIM (boundary_ t) pos)).
  - inversion E; subst. unfold tree_geom_ok. auto.
  - destruct (insert_node DIM update fuel t (root_ t) pos d) as [r|] eqn:Er;
      [|discriminate].
    inversion E; subst.
    destruct (insert_node_geom_ok _ _ _ _ _ _ Hok Er) as (Hr & Hcr & Hdr).
    unfold tree_geom_ok. simpl.
    split; [congruence|]. split; [congruence|]. split; [assumption|].
    apply (geom_ok_tree t); [reflexivity | exact Hr].
Qed.

Lemma insert_all_geom_ok l t fuel t' :
  tree_geom_ok DIM t ->
  insert_all DIM update fuel t l = Some t' ->
  tree_geom_ok DIM t'.
Proof.
  revert t. induction l as [|[pos d] l IH]; intros t Hok E; simpl in E.
  - inversion E; subst. assumption.
  - destruct (insert DIM update fuel t pos d) as [t1|] eqn:E1; [|discriminate].
    eapply IH; [|exact E]. eapply insert_geom_ok; eassumption.
Qed.

Lemma node_at_geom_ok t node (path : list Z) n :
  geom_ok DIM t node -> node_at node path = Some n -> geom_ok DIM t n.
Proof.
  revert node. induction path as [|i path IH]; intros node Hok E; simpl in E.
  - inversion E; subst. assumption.
  - destruct (child node i) as [c|] eqn:Ec; [|discriminate].
    destruct (geom_ok_child _ _ _ _ Hok Ec) as [_ Hc].
    exact (IH _ Hc E).
Qed.

(** A child is the cell of every position routed to its slot. *)
Lemma child_is_cell t node (p : PosType) c :
  DIM <= 30 ->
  geom_ok DIM t node ->
  child node (find_index DIM p node) = Some c ->
  center c = find_center DIM t p node /\ depth c = depth node + 1.
Proof.
  intros HD Hok E.
  destruct (geom_ok_child _ _ _ _ Hok E) as [(pos0 & Hp & Hc & Hd) _].
  split; [|exact Hd]. rewrite Hc.
  apply find_center_same_index; [exact HD|].
  pose proof (find_index_range DIM p node HD).
  pose proof (find_index_range DIM pos0 node HD).
  symmetry. apply Z2Nat.inj; lia.
Qed.

(** The region of the root is the boundary of the tree. *)
Lemma root_region t :
  tree_geom_ok DIM t ->
  same_region DIM (find_boundary t (root_ t)) (boundary_ t).
Proof.
  intros (Hc & Hd & Hs & Hok) i Hi.
  pose proof (geom_ok_length _ _ Hok) as Hl.
  destruct (find_boundary_at t (root_ t) i) as [Hmin Hmax]; [lia | lia |].
  rewrite Hmin, Hmax, Hd, Hc.
  unfold Boundary.size, Boundary.center in *.
  unfold vsub in Hs. rewrite length_zip_with in Hs.
  rewrite at_vdiv by (unfold vadd; rewrite length_zip_with; lia).
  rewrite at_vadd, at_vsub by lia.
  change (int_shl1 (0 + 1)) with 2%Z.
  change (inject_Z 2) with 2%Q.
  split; field.
Qed.

End Geometry.



(** ** [find_boundary] and the width of [int] *)

(** While [1 << (depth + 1)] fits in an [int], the region is the centre
    plus and minus [size / 2^(depth + 1)]. *)
Lemma find_boundary_formula
  (DataType : Type) (t : Tree DataType) (node : Node DataType) :
  depth node + 1 < 31 ->
  find_boundary t node =
  let h := vdiv (Boundary.size (boundary_ t))
                (2 ^ Z.of_nat (depth node + 1)) in
  Boundary.Build (vsub (center node) h) (vadd (center node) h).
Proof.
  intros H. unfold find_boundary. cbv zeta.
  now rewrite int_shl1_small by assumption.
Qed.

Lemma find_boundary_formula_witness :
  depth (root_ Demo.quadtree) + 1 < 31 /\
  find_boundary Demo.quadtree (root_ Demo.quadtree) =
  let h := vdiv (Boundary.size (boundary_ Demo.quadtree))
                (2 ^ Z.of_nat (depth (root_ Demo.quadtree) + 1)) in
  Boundary.Build (vsub (center (root_ Demo.quadtree)) h)
                 (vadd (center (root_ Demo.quadtree)) h).
Proof.
  assert (depth (root_ Demo.quadtree) + 1 < 31) as H by (simpl; lia).
  split; [exact H|].
  exact (find_boundary_formula Z Demo.quadtree (root_ Demo.quadtree) H).
Defined.

(** The region depends on the node's centre and depth and on the size of
    the boundary only. *)
Lemma find_boundary_pure
  (DataType : Type) (t t' : Tree DataType) (node node' : Node DataType) :
  center node = center node' ->
  depth node = depth node' ->
  Boundary.size (boundary_ t) = Boundary.size (boundary_ t') ->
  find_boundary t node = find_boundary t' node'.
Proof.
  intros Ec Ed Es. unfold find_boundary. now rewrite Ec, Ed, Es.
Qed.

(** A box whose minimum lies above its maximum on some axis is empty. *)
Lemma inverted_region_empty (DIM : nat) (b : Boundary.t) (q : PosType) :
  (exists i, i < DIM /\
     (at_ (Boundary.max b) i < at_ (Boundary.min b) i)%Q) ->
  ~ In_region DIM b q.
Proof.
  intros (i & Hi & Hinv) Hq. destruct (Hq i Hi). lra.
Qed.

(** C8 at depth 30.  In the quadtree over (0,0)-(100,100) with
    [max_depth = 31], one insertion at (30,70) creates a node at depth 30.
    There [1 << (depth + 1)] is [1 << 31], which is [-2^31] and not [2^31]:
    the bounds [find_boundary] returns are not [center -/+ size / 2^31],
    and the minimum lies above the maximum. *)
Lemma find_boundary_depth30 :
  exists t n,
    insert Demo.DIM Demo.sum 31 Demo.quadtree31 Demo.p3070 1%Z = Some t /\
    find Demo.DIM 31 t Demo.p3070 = Some n /\
    depth n = 30 /\
    ~ (at_ (Boundary.min (find_boundary t n)) 0 ==
       at_ (vsub (center n)
                 (vdiv (Boundary.size (boundary_ t)) (2 ^ 31))) 0)%Q /\
    ~ (at_ (Boundary.max (find_boundary t n)) 0 ==
       at_ (vadd (center n)
                 (vdiv (Boundary.size (boundary_ t)) (2 ^ 31))) 0)%Q /\
    (at_ (Boundary.max (find_boundary t n)) 0 <
     at_ (Boundary.min (find_boundary t n)) 0)%Q.
Proof.
  run_closed (insert Demo.DIM Demo.sum 31 Demo.quadtree31 Demo.p3070 1%Z) t E.
  destruct (find Demo.DIM 31 t Demo.p3070) as [n|] eqn:En.
  - exists t, n. split; [reflexivity|]. split; [exact En|].
    reveal E t.
    reveal En n.
    split; [reflexivity|].
    split; [intros H; vm_compute in H; discriminate|].
    split; [intros H; vm_compute in H; discriminate|].
    vm_compute. reflexivity.
  - exfalso. reveal E t.
    vm_compute in En. discriminate.
Qed.

(** C7 between depths 29 and 30, in the same tree.  The node at depth 29 on
    the path of (30,70) has that position strictly inside its region and
    has its child for that position in the slot [find_index] gives; the
    region of that child, as [find_boundary] returns it, has its minimum
    above its maximum and contains no position at all, so the children's
    regions leave a gap. *)
Lemma child_region_depth30_empty :
  exists t n29 n30,
    insert Demo.DIM Demo.sum 31 Demo.quadtree31 Demo.p3070 1%Z = Some t /\
    find_at Demo.DIM 31 t Demo.p3070 29 = Some n29 /\
    depth n29 = 29 /\
    child n29 (find_index Demo.DIM Demo.p3070 n29) = Some n30 /\
    depth n30 = 30 /\
    In_interior Demo.DIM (find_boundary t n29) Demo.p3070 /\
    forall q, ~ In_region Demo.DIM (find_boundary t n30) q.
Proof.
  run_closed (insert Demo.DIM Demo.sum 31 Demo.quadtree31 Demo.p3070 1%Z) t E.
  destruct (find_at Demo.DIM 31 t Demo.p3070 29) as [n29|] eqn:E29.
  - destruct (child n29 (find_index Demo.DIM Demo.p3070 n29)) as [n30|] eqn:E30.
    + exists t, n29, n30.
      split; [reflexivity|]. split; [exact E29|].
      reveal E t.
      reveal E29 n29.
      split; [reflexivity|]. split; [exact E30|].
      reveal E30 n30.
      split; [reflexivity|]. split.
      * intros i Hi. unfold Demo.DIM in Hi.
        destruct i as [|[|i]]; [| |lia]; split; vm_compute; reflexivity.
      * intros q. apply inverted_region_empty.
        exists 0. split; [unfold Demo.DIM; lia|]. vm_compute. reflexivity.
    + exfalso. reveal E t.
      reveal E29 n29.
      vm_compute in E30. discriminate.
  - exfalso. reveal E t.
    vm_compute in E29. discriminate.
Qed.

(** * Further properties *)

(** ** [get_file_name] *)

Module LogFacts.

Import Ascii String.
Import Log.

#[local] Open Scope string_scope.

Lemma find_last_of_None (s : string) (c : ascii) :
  find_last_of s c = None <-> ~ In c (list_ascii_of_string s).
Proof.
  induction s as [|a s IH]; simpl.
  - split; [intros _ [] | reflexivity].
  - destruct (find_last_of s c) as [i|].
    + split; [discriminate|]. intros H. exfalso.
      assert (~ In c (list_ascii_of_string s)) as Hs by tauto.
      apply IH in Hs. discriminate.
    + destruct (Ascii.eqb_spec a c) as [->|Hne].
      * split; [discriminate | tauto].
      * split; [|reflexivity]. intros _ [E|Hin]; [congruence|].
        now apply IH in Hin.
Qed.

(** The last occurrence splits the string: nothing after it is [c]. *)
Lemma find_last_of_Some (s : string) (c : ascii) (i : nat) :
  find_last_of s c = Some i ->
  exists pre suf,
    s = pre ++ String c suf /\ length pre = i /\
    ~ In c (list_ascii_of_string suf).
Proof.
  revert i. induction s as [|a s IH]; intros i E; simpl in E; [discriminate|].
  destruct (find_last_of s c) as [j|] eqn:Ej.
  - inversion E; subst i.
    destruct (IH j eq_refl) as (pre & suf & -> & Hlen & Hsuf).
    exists (String a pre), suf. simpl. rewrite Hlen. auto.
  - destruct (Ascii.eqb_spec a c) as [->|Hne]; [|discriminate].
    inversion E; subst i.
    exists "", s. simpl. split; [reflexivity|]. split; [reflexivity|].
    now apply find_last_of_None.
Qed.

Lemma find_last_of_app (pre suf : string) (c : ascii) :
  ~ In c (list_ascii_of_string suf) ->
  find_last_of (pre ++ String c suf) c = Some (length pre).
Proof.
  intros Hsuf. induction pre as [|a pre IH]; simpl.
  - apply find_last_of_None in Hsuf. rewrite Hsuf.
    now rewrite Ascii.eqb_refl.
  - now rewrite IH.
Qed.

Lemma substring_all (s : string) : substring 0 (length s) s = s.
Proof. induction s as [|a s IH]; simpl; [reflexivity | now rewrite IH]. Qed.

Lemma substring_suffix (pre suf : string) :
  substring (length pre) (length suf) (pre ++ suf) = suf.
Proof.
  induction pre as [|a pre IH]; simpl; [apply substring_all | exact IH].
Qed.

Lemma length_app (a b : string) : length (a ++ b) = length a + length b.
Proof. induction a as [|x a IH]; simpl; [reflexivity | now rewrite IH]. Qed.

Lemma substr_after (pre suf : string) (c : ascii) :
  substr (pre ++ String c suf) (length pre + 1) = Some suf.
Proof.
  unfold substr. rewrite length_app. simpl.
  replace (length pre + 1 <=? length pre + S (length suf))%nat with true
    by (symmetry; apply Nat.leb_le; lia).
  replace (length pre + S (length suf) - (length pre + 1))
    with (length suf) by lia.
  replace (length pre + 1) with (length (pre ++ String c "")).
  - replace (pre ++ String c suf) with ((pre ++ String c "") ++ suf).
    + now rewrite substring_suffix.
    + induction pre as [|a pre IH]; simpl; [reflexivity | now rewrite IH].
  - rewrite length_app. reflexivity.
Qed.

(** X1.  [get_file_name] never lets an exception out, and what it returns is the
    part of the name after the last slash: a suffix of the name without any
    slash, preceded by nothing or by a prefix that ends in a slash. *)
Theorem get_file_name_suffix (file_name : string) :
  exists dir base,
    get_file_name file_name = Some base /\
    file_name = dir ++ base /\
    no_slash base /\
    (dir = "" \/ exists d, dir = d ++ "/").
Proof.
  unfold get_file_name.
  destruct (find_last_of file_name "/") as [i|] eqn:E.
  - destruct (find_last_of_Some _ _ _ E) as (pre & suf & -> & <- & Hsuf).
    exists (pre ++ "/"), suf. rewrite substr_after.
    split; [reflexivity|]. split.
    + clear. induction pre as [|a pre IH]; simpl;
        [reflexivity | now rewrite <- IH].
    + split; [exact Hsuf|]. right. now exists pre.
  - exists "", file_name. split; [reflexivity|]. split; [reflexivity|].
    split; [now apply find_last_of_None | now left].
Qed.

(** X2.  The base name of [dir/name] is [name] when [name] has no slash, also
    when [name] is empty; a name without a slash is returned as it is. *)
Theorem get_file_name_join (dir name : string) :
  no_slash name ->
  get_file_name (dir ++ "/" ++ name) = Some name /\
  get_file_name name = Some name.
Proof.
  intros H. unfold get_file_name. split.
  - change (dir ++ "/" ++ name) with (dir ++ String "/" name).
    rewrite (find_last_of_app dir name "/" H). apply substr_after.
  - apply find_last_of_None in H. now rewrite H.
Qed.

Lemma get_file_name_join_witness :
  no_slash "tt_log.cc" /\
  get_file_name ("src/core" ++ "/" ++ "tt_log.cc") = Some "tt_log.cc" /\
  get_file_name "tt_log.cc" = Some "tt_log.cc".
Proof.
  assert (no_slash "tt_log.cc") as H.
  { unfold no_slash. simpl. intros Hin.
    repeat (destruct Hin as [Hin|Hin]; [discriminate|]). exact Hin. }
  split; [exact H|].
  exact (get_file_name_join "src/core" "tt_log.cc" H).
Defined.

End LogFacts.

(** ** The slots invariant *)

Section SlotsInvariant.

Context (DIM : nat) {DataType : Type} (DataType_default : DataType)
        (update : DataType -> DataType -> DataType).

Implicit Types (node c r : Node DataType) (t : Tree DataType).

Lemma slots_ok_new_Node (p : PosType) (d : DataType) (k : nat) :
  slots_ok DIM (new_Node DIM p d k).
Proof.
  constructor; [apply length_replicate|].
  intros j c Hj. exfalso. eapply childs_new_Node. exact Hj.
Qed.

Lemma slots_ok_set_data node (d : DataType) :
  slots_ok DIM node -> slots_ok DIM (set_data node d).
Proof. intros H. inversion H; subst. constructor; assumption. Qed.

Lemma slots_ok_length node :
  slots_ok DIM node -> length (childs node) = child_num_ DIM.
Proof. intros H. now inversion H. Qed.

Lemma slots_ok_child node i c :
  slots_ok DIM node -> child node i = Some c -> slots_ok DIM c.
Proof.
  intros H E. apply child_Some in E. inversion H as [n H1 H2]; subst. eauto.
Qed.

Lemma next_cell_slots_ok t node (pos : PosType) (d : DataType) :
  slots_ok DIM node -> slots_ok DIM (next_cell DIM update t node pos d).
Proof.
  intros H. unfold next_cell.
  destruct (child node (find_index DIM pos node)) as [c0|] eqn:E.
  - apply slots_ok_set_data. eapply slots_ok_child; eassumption.
  - apply slots_ok_new_Node.
Qed.

Lemma slots_ok_set_child node i c :
  slots_ok DIM node -> slots_ok DIM c -> slots_ok DIM (set_child node i c).
Proof.
  intros H Hc. inversion H as [n H1 H2]; subst. constructor.
  - simpl. now rewrite length_insert.
  - intros k x Hk. apply childs_set_child_Some in Hk.
    destruct Hk as [[-> ->]|Hk]; [assumption | eauto].
Qed.

Lemma insert_node_slots_ok fuel t node (pos : PosType) (d : DataType) r :
  slots_ok DIM node ->
  insert_node DIM update fuel t node pos d = Some r ->
  slots_ok DIM r.
Proof.
  revert node r. induction fuel as [|fuel IH]; intros node r Hok E.
  - discriminate.
  - rewrite insert_node_S in E.
    destruct (depth node + 1 =? max_depth_ t).
    + now inversion E; subst.
    + destruct (insert_node DIM update fuel t
                  (next_cell DIM update t node pos d) pos d)
        as [c'|] eqn:Ec; [|discriminate].
      inversion E; subst r. apply slots_ok_set_child; [assumption|].
      eapply IH; [|exact Ec]. now apply next_cell_slots_ok.
Qed.

Lemma insert_slots_ok t fuel (pos : PosType) (d : DataType) t' :
  slots_ok DIM (root_ t) ->
  insert DIM update fuel t pos d = Some t' ->
  slots_ok DIM (root_ t').
Proof.
  intros Hok E. unfold insert in E.
  destruct (negb (Boundary.is_in DIM (boundary_ t) pos)).
  - now inversion E; subst.
  - destruct (insert_node DIM update fuel t (root_ t) pos d) as [r|] eqn:Er;
      [|discriminate].
    inversion E; subst. simpl. eapply insert_node_slots_ok; eassumption.
Qed.

Lemma insert_all_slots_ok l t fuel t' :
  slots_ok DIM (root_ t) ->
  insert_all DIM update fuel t l = Some t' ->
  slots_ok DIM (root_ t').
Proof.
  revert t. induction l as [|[pos d] l IH]; intros t Hok E; simpl in E.
  - now inversion E; subst.
  - destruct (insert DIM update fuel t pos d) as [t1|] eqn:E1; [|discriminate].
    eapply IH; [|exact E]. eapply insert_slots_ok; eassumption.
Qed.

Lemma Octree_slots_ok (pmin pmax : PosType) (m : nat) :
  slots_ok DIM (root_ (Octree DIM DataType_default pmin pmax m)).
Proof. apply slots_ok_new_Node. Qed.

End SlotsInvariant.

(** ** [insert] followed by [find] *)

Section InsertFind.

Context (DIM : nat) {DataType : Type} (DataType_default : DataType)
        (update : DataType -> DataType -> DataType).

Implicit Types (node c r x : Node DataType) (t : Tree DataType).

Lemma descend_snoc node (pos : PosType) k x :
  descend DIM node pos k = Some x ->
  descend DIM node pos (S k) = child x (find_index DIM pos x).
Proof.
  revert node. induction k as [|k IH]; intros node E.
  - simpl in E. inversion E; subst. simpl.
    now destruct (child x (find_index DIM pos x)).
  - simpl in E. change (descend DIM node pos (S (S k))) with
      (match child node (find_index DIM pos node) with
       | None => None
       | Some c => descend DIM c pos (S k)
       end).
    destruct (child node (find_index DIM pos node)) as [c|]; [|discriminate].
    now apply IH.
Qed.

Lemma descend_set_data node (q : PosType) k x (d : DataType) :
  descend DIM node q k = Some x ->
  exists x',
    descend DIM (set_data node d) q k = Some x' /\
    center x' = center x /\ depth x' = depth x.
Proof.
  destruct k as [|k]; simpl; intros E.
  - inversion E; subst. now exists (set_data x d).
  - now exists x.
Qed.

(** The cells on the path of the position inserted exist after the call. *)
Lemma insert_node_descend fuel t node (pos : PosType) (d : DataType) r k :
  DIM <= 30 ->
  slots_ok DIM node ->
  depth_ok (max_depth_ t) node ->
  insert_node DIM update fuel t node pos d = Some r ->
  depth node + k < max_depth_ t ->
  exists x, descend DIM r pos k = Some x /\ depth x = depth node + k.
Proof.
  intros HD. revert node r k.
  induction fuel as [|fuel IH]; intros node r k Hs Hok E Hk; [discriminate|].
  rewrite insert_node_S in E.
  destruct (Nat.eqb_spec (depth node + 1) (max_depth_ t)) as [Em|Hne].
  - inversion E; subst r. destruct k as [|k]; [|lia].
    exists node. simpl. split; [reflexivity | lia].
  - destruct (insert_node DIM update fuel t
                (next_cell DIM update t node pos d) pos d)
      as [c'|] eqn:Ec; [|discriminate].
    inversion E; subst r; clear E.
    destruct k as [|k].
    + eexists. simpl. split; [reflexivity | simpl; lia].
    + destruct (next_cell_depth_ok DIM update t node pos d Hok) as [Hc Hd].
      destruct (IH _ _ k (next_cell_slots_ok DIM update t node pos d Hs)
                   Hc Ec) as (x & Hx & Hdx); [lia|].
      exists x. split; [|lia].
      change (descend DIM (set_child node (find_index DIM pos node) c')
                      pos (S k))
        with (match child (set_child node (find_index DIM pos node) c')
                          (find_index DIM pos node) with
              | None => None
              | Some c => descend DIM c pos k
              end).
      rewrite child_set_child_eq; [exact Hx|].
      rewrite (slots_ok_length DIM _ Hs). now apply find_index_slot.
Qed.

(** A cell reached by indexing on a position is still reached after an
    insertion anywhere, at the same depth and with the same centre. *)
Lemma insert_node_descend_mono fuel t node (p q : PosType) (d : DataType)
      r k x :
  insert_node DIM update fuel t node p d = Some r ->
  descend DIM node q k = Some x ->
  exists x',
    descend DIM r q k = Some x' /\
    center x' = center x /\ depth x' = depth x.
Proof.
  revert node r k x.
  induction fuel as [|fuel IH]; intros node r k x E Hx; [discriminate|].
  rewrite insert_node_S in E.
  destruct (depth node + 1 =? max_depth_ t).
  - inversion E; subst r. now exists x.
  - destruct (insert_node DIM update fuel t
                (next_cell DIM update t node p d) p d)
      as [c'|] eqn:Ec; [|discriminate].
    inversion E; subst r; clear E.
    destruct k as [|k].
    + simpl in Hx. inversion Hx; subst x. eexists. simpl.
      split; [reflexivity | split; reflexivity].
    + simpl in Hx.
      destruct (child node (find_index DIM q node)) as [c|] eqn:Eq;
        [|discriminate].
      change (descend DIM (set_child node (find_index DIM p node) c')
                      q (S k))
        with (match child (set_child node (find_index DIM p node) c')
                          (find_index DIM q node) with
              | None => None
              | Some c => descend DIM c q k
              end).
      destruct (Nat.eq_dec (Z.to_nat (find_index DIM p node))
                           (Z.to_nat (find_index DIM q node))) as [Eidx|Hne].
      * assert (child node (find_index DIM p node) = Some c) as Ep
            by (unfold child in *; now rewrite Eidx).
        assert (child (set_child node (find_index DIM p node) c')
                      (find_index DIM q node) = Some c') as Ec'.
        { apply child_Some. simpl. rewrite <- Eidx.
          apply list_lookup_insert_eq.
          apply child_Some in Ep. now apply lookup_lt_Some in Ep. }
        rewrite Ec'.
        unfold next_cell in Ec. rewrite Ep in Ec.
        destruct (descend_set_data c q k x (update (data c) d) Hx)
          as (x1 & Hx1 & Hc1 & Hd1).
        destruct (IH _ _ _ _ Ec Hx1) as (x' & Hx' & Hc' & Hd').
        exists x'. split; [exact Hx'|]. split; congruence.
      * rewrite child_set_child_ne by assumption. rewrite Eq.
        now exists x.
Qed.

Lemma insert_descend_mono t fuel (p q : PosType) (d : DataType) t' k x :
  insert DIM update fuel t p d = Some t' ->
  descend DIM (root_ t) q k = Some x ->
  exists x', descend DIM (root_ t') q k = Some x' /\ depth x' = depth x.
Proof.
  unfold insert. intros E Hx.
  destruct (negb (Boundary.is_in DIM (boundary_ t) p)).
  - inversion E; subst. now exists x.
  - destruct (insert_node DIM update fuel t (root_ t) p d) as [r|] eqn:Er;
      [|discriminate].
    inversion E; subst. simpl.
    destruct (insert_node_descend_mono _ _ _ _ _ _ _ _ _ Er Hx)
      as (x' & Hx' & _ & Hd').
    now exists x'.
Qed.

Lemma insert_all_descend_mono l t fuel (q : PosType) t' k x :
  insert_all DIM update fuel t l = Some t' ->
  descend DIM (root_ t) q k = Some x ->
  exists x', descend DIM (root_ t') q k = Some x' /\ depth x' = depth x.
Proof.
  revert t x. induction l as [|[p d] l IH]; intros t x E Hx; simpl in E.
  - inversion E; subst. now exists x.
  - destruct (insert DIM update fuel t p d) as [t1|] eqn:E1; [|discriminate].
    destruct (insert_descend_mono _ _ _ _ _ _ _ _ E1 Hx) as (x1 & Hx1 & Hd1).
    destruct (IH _ _ E Hx1) as (x' & Hx' & Hd').
    exists x'. split; [exact Hx' | congruence].
Qed.

(** Once a position has been inserted, every level of its path exists. *)
Lemma inserted_path_exists l :
  forall t fuel (pos : PosType) (v : DataType) t' k,
  DIM <= 30 ->
  slots_ok DIM (root_ t) ->
  tree_depth_ok t ->
  insert_all DIM update fuel t l = Some t' ->
  In (pos, v) l ->
  Boundary.is_in DIM (boundary_ t) pos = true ->
  k < max_depth_ t ->
  exists x, descend DIM (root_ t') pos k = Some x /\ depth x = k.
Proof.
  induction l as [|[p d] l IH]; intros t fuel pos v t' k HD Hs Hok E Hin Hb Hk;
    [destruct Hin|].
  simpl in E.
  destruct (insert DIM update fuel t p d) as [t1|] eqn:E1; [|discriminate].
  destruct (insert_keeps DIM update _ _ _ _ _ E1) as [Hb1 Hm1].
  destruct Hin as [Heq|Hin].
  - inversion Heq; subst p d. clear Heq.
    assert (exists x, descend DIM (root_ t1) pos k = Some x /\ depth x = k)
      as (x & Hx & Hdx).
    { unfold insert in E1. rewrite Hb in E1. cbn [negb] in E1.
      destruct (insert_node DIM update fuel t (root_ t) pos v) as [r|] eqn:Er;
        [|discriminate].
      inversion E1; subst t1. simpl.
      destruct Hok as [H0 Hok].
      destruct (insert_node_descend fuel t (root_ t) pos v r k HD Hs Hok Er)
        as (x & Hx & Hdx); [lia|].
      exists x. split; [exact Hx | lia]. }
    destruct (insert_all_descend_mono _ _ _ _ _ _ _ E Hx) as (x' & Hx' & Hd').
    exists x'. split; [exact Hx' | lia].
  - apply (IH t1 fuel pos v t' k HD); try assumption.
    + eapply insert_slots_ok; eassumption.
    + eapply insert_depth_ok; eassumption.
    + now rewrite Hb1.
    + lia.
Qed.

(** With [max_depth = 0] no run that inserts a position inside the
    boundary returns. *)
Lemma insert_all_max_depth_0 l :
  forall t fuel (pos : PosType) (v : DataType) t',
  max_depth_ t = 0 ->
  tree_depth_ok t ->
  insert_all DIM update fuel t l = Some t' ->
  In (pos, v) l ->
  Boundary.is_in DIM (boundary_ t) pos = true ->
  False.
Proof.
  induction l as [|[p d] l IH]; intros t fuel pos v t' Hm Hok E Hin Hb;
    [destruct Hin|].
  simpl in E.
  destruct (insert DIM update fuel t p d) as [t1|] eqn:E1; [|discriminate].
  destruct Hin as [Heq|Hin].
  - inversion Heq; subst p d. unfold insert in E1.
    rewrite Hb in E1. cbn [negb] in E1. destruct Hok as [H0 Hok].
    rewrite (insert_node_overrun DIM update) in E1;
      [discriminate | assumption | lia].
  - destruct (insert_keeps DIM update _ _ _ _ _ E1) as [Hb1 Hm1].
    apply (IH t1 fuel pos v t'); try assumption.
    + lia.
    + eapply insert_depth_ok; eassumption.
    + now rewrite Hb1.
Qed.

End InsertFind.

(** X8.  After any sequence of [insert] calls on a new tree, a position that
    was inserted and lies inside the boundary is found at every level:
    [find(pos, d)] returns a node of depth exactly [min d (max_depth - 1)],
    and [find(pos)] a node of depth [max_depth - 1]. *)
Theorem inserted_position_found
  (DIM : nat) (DataType : Type) (DataType_default : DataType)
  (update : DataType -> DataType -> DataType)
  (pmin pmax : PosType) (m fuel0 : nat) (l : list (PosType * DataType))
  (t : Tree DataType) (pos : PosType) (v : DataType) (fuel d : nat) :
  DIM <= 30 ->
  insert_all DIM update fuel0 (Octree DIM DataType_default pmin pmax m) l
    = Some t ->
  In (pos, v) l ->
  Boundary.is_in DIM (Boundary.Build pmin pmax) pos = true ->
  m <= fuel ->
  (exists n, find_at DIM fuel t pos d = Some n /\
             depth n = Nat.min d (m - 1)) /\
  (exists n, find DIM fuel t pos = Some n /\ depth n = m - 1).
Proof.
  intros HD E Hin Hb Hf.
  destruct (insert_all_keeps DIM update _ _ _ _ E) as [_ Hm]. simpl in Hm.
  pose proof (insert_all_depth_ok DIM update _ _ _ _
                (Octree_depth_ok DIM DataType_default pmin pmax m) E)
    as [H0 Hok].
  rewrite Hm in Hok.
  assert (1 <= m) as H1.
  { destruct m as [|m]; [exfalso | lia].
    apply (insert_all_max_depth_0 DIM update l
             (Octree DIM DataType_default pmin pmax 0) fuel0 pos v t);
      try assumption; try reflexivity.
    apply Octree_depth_ok. }
  assert (forall d', exists n, find_at DIM fuel t pos d' = Some n /\
                               depth n = Nat.min d' (m - 1)) as Hfind.
  { intros d'.
    destruct (find_node_spec DIM m fuel (root_ t) pos d' Hok)
      as (r & k & Er & Ek & Hr & Hrd & Hend); [lia | lia | lia |].
    exists r. split; [exact Er|].
    rewrite H0 in Hr. simpl in Hr. subst k.
    assert (depth r < m) as Hlt.
    { destruct (descend_node_at DIM _ _ _ _ Ek) as (path & _ & Hp).
      destruct (node_at_depth _ _ _ _ Hok Hp) as (Hd & _ & Hbd).
      destruct path as [|i path]; [simpl in Hd; lia|].
      apply Hbd. discriminate. }
    destruct (Nat.lt_ge_cases (depth r) d') as [Hlt'|Hge]; [|lia].
    destruct (Nat.lt_ge_cases (depth r + 1) m) as [Hnext|Hlast]; [|lia].
    exfalso. specialize (Hend Hlt').
    destruct (inserted_path_exists DIM update l
                (Octree DIM DataType_default pmin pmax m) fuel0 pos v t
                (depth r + 1) HD)
      as (x & Hx & _); try assumption.
    - apply Octree_slots_ok.
    - apply Octree_depth_ok.
    - replace (depth r + 1) with (S (depth r)) in Hx by lia.
      rewrite (descend_snoc DIM _ _ _ _ Ek) in Hx. congruence. }
  split; [apply Hfind|].
  unfold find. rewrite Hm.
  destruct (Hfind m) as (n & En & Hn). exists n. split; [exact En | lia].
Qed.

Lemma inserted_position_found_witness :
  exists t,
    insert_all Demo.DIM Demo.sum 4 Demo.quadtree Demo.three = Some t /\
    (exists n, find_at Demo.DIM 4 t Demo.p25 2 = Some n /\
               depth n = Nat.min 2 (4 - 1)) /\
    (exists n, find Demo.DIM 4 t Demo.p25 = Some n /\ depth n = 4 - 1).
Proof.
  run_closed (insert_all Demo.DIM Demo.sum 4 Demo.quadtree Demo.three) t E.
  exists t. split; [reflexivity|].
  apply (inserted_position_found Demo.DIM Z 0%Z Demo.sum Demo.pmin Demo.pmax
           4 4 Demo.three t Demo.p25 1%Z 4 2).
  - unfold Demo.DIM. lia.
  - exact E.
  - now left.
  - reflexivity.
  - lia.
Defined.

(** ** What [insert] leaves in place *)

Section InsertKeeps.

Context (DIM : nat) {DataType : Type}
        (update : DataType -> DataType -> DataType).

Implicit Types (node c r x : Node DataType) (t : Tree DataType).

Lemma insert_node_keeps_nodes fuel t node (p : PosType) (d : DataType)
      r (path : list Z) x :
  insert_node DIM update fuel t node p d = Some r ->
  node_at node path = Some x ->
  exists x',
    node_at r path = Some x' /\
    center x' = center x /\ depth x' = depth x /\
    (path = [] -> data x' = data x) /\
    (data x' = data x \/ data x' = update (data x) d).
Proof.
  revert node r path x.
  induction fuel as [|fuel IH]; intros node r path x E Hx; [discriminate|].
  rewrite insert_node_S in E.
  destruct (depth node + 1 =? max_depth_ t).
  - inversion E; subst r. exists x. repeat split; auto.
  - destruct (insert_node DIM update fuel t
                (next_cell DIM update t node p d) p d)
      as [c'|] eqn:Ec; [|discriminate].
    inversion E; subst r; clear E.
    destruct path as [|i path].
    + simpl in Hx. inversion Hx; subst x. eexists. simpl.
      split; [reflexivity|]. repeat split; auto.
    + simpl in Hx. destruct (child node i) as [c|] eqn:Ei; [|discriminate].
      simpl.
      destruct (Nat.eq_dec (Z.to_nat (find_index DIM p node)) (Z.to_nat i))
        as [Eidx|Hne].
      * assert (child node (find_index DIM p node) = Some c) as Ep
            by (unfold child in *; now rewrite Eidx).
        assert (child (set_child node (find_index DIM p node) c') i = Some c')
          as Ec'.
        { apply child_Some. simpl. rewrite <- Eidx.
          apply list_lookup_insert_eq.
          apply child_Some in Ep. now apply lookup_lt_Some in Ep. }
        rewrite Ec'. unfold next_cell in Ec. rewrite Ep in Ec.
        destruct path as [|j path].
        -- simpl in Hx. inversion Hx; subst x.
           destruct (IH _ _ [] _ Ec eq_refl)
             as (x' & Hx' & Hc' & Hd' & Hdata & _).
           exists x'. split; [exact Hx'|]. split; [exact Hc'|].
           split; [exact Hd'|]. split; [discriminate|].
           right. now rewrite Hdata.
        -- destruct (IH _ _ (j :: path) x Ec Hx)
             as (x' & Hx' & Hc' & Hd' & _ & Hdata).
           exists x'. split; [exact Hx'|]. split; [exact Hc'|].
           split; [exact Hd'|]. split; [discriminate | exact Hdata].
      * rewrite child_set_child_ne by assumption. rewrite Ei.
        exists x. split; [exact Hx|]. split; [reflexivity|].
        split; [reflexivity|]. split; [discriminate | now left].
Qed.

End InsertKeeps.

(** X7.  [insert] removes and moves nothing: whatever the tree, the position and
    the value, a node that could be reached along a path of slots before
    the call is reached along the same path after it, with the same centre
    and depth; its data is what it was or has been combined once with the
    value inserted, and the data of the root is what it was. *)
Theorem insert_keeps_nodes
  (DIM : nat) (DataType : Type) (update : DataType -> DataType -> DataType)
  (fuel : nat) (t t' : Tree DataType) (pos : PosType) (d : DataType)
  (path : list Z) (x : Node DataType) :
  insert DIM update fuel t pos d = Some t' ->
  node_at (root_ t) path = Some x ->
  exists x',
    node_at (root_ t') path = Some x' /\
    center x' = center x /\ depth x' = depth x /\
    (path = [] -> data x' = data x) /\
    (data x' = data x \/ data x' = update (data x) d).
Proof.
  unfold insert. intros E Hx.
  destruct (negb (Boundary.is_in DIM (boundary_ t) pos)).
  - inversion E; subst. exists x. repeat split; auto.
  - destruct (insert_node DIM update fuel t (root_ t) pos d) as [r|] eqn:Er;
      [|discriminate].
    inversion E; subst. simpl.
    exact (insert_node_keeps_nodes DIM update _ _ _ _ _ _ _ _ Er Hx).
Qed.

Lemma insert_keeps_nodes_witness :
  exists t t' x,
    insert_all Demo.DIM Demo.sum 4 Demo.quadtree Demo.three = Some t /\
    insert Demo.DIM Demo.sum 4 t Demo.p3070 1%Z = Some t' /\
    node_at (root_ t) [0%Z; 0%Z] = Some x /\
    exists x',
      node_at (root_ t') [0%Z; 0%Z] = Some x' /\
      center x' = center x /\ depth x' = depth x /\
      ([0%Z; 0%Z] = [] -> data x' = data x) /\
      (data x' = data x \/ data x' = Demo.sum (data x) 1%Z).
Proof.
  run_closed (insert_all Demo.DIM Demo.sum 4 Demo.quadtree Demo.three) t E.
  destruct (insert Demo.DIM Demo.sum 4 t Demo.p3070 1%Z) as [t'|] eqn:E';
    [|reveal E t; vm_compute in E'; discriminate].
  destruct (node_at (root_ t) [0%Z; 0%Z]) as [x|] eqn:Ex;
    [|reveal E t; vm_compute in Ex; discriminate].
  exists t, t', x. split; [reflexivity|]. split; [exact E'|].
  split; [exact Ex|].
  exact (insert_keeps_nodes Demo.DIM Z Demo.sum 4 t t' Demo.p3070 1%Z
           [0%Z; 0%Z] x E' Ex).
Defined.

(** ** The default sum along the tree *)

Section Sums.

Context (DIM : nat).

Implicit Types (node c r : Node Z) (t : Tree Z).

Lemma child_sum_replicate (n : nat) : child_sum (replicate n None) = 0%Z.
Proof. induction n as [|n IH]; simpl; [reflexivity | exact IH]. Qed.

(** Storing a child in a slot changes the sum by the difference of the
    data. *)
Lemma child_sum_insert (slots : list (option (Node Z))) (i : nat)
      (old : option (Node Z)) c :
  slots !! i = Some old ->
  child_sum (<[i := Some c]> slots) =
  (child_sum slots
   - match old with Some c0 => data c0 | None => 0 end + data c)%Z.
Proof.
  revert i. induction slots as [|slot slots IH]; intros i Hi;
    [discriminate|].
  destruct i as [|i]; simpl in *.
  - inversion Hi; subst slot. destruct old; lia.
  - rewrite (IH i Hi). destruct slot; lia.
Qed.

Lemma agg_ok_new_Node m (p : PosType) (d : Z) (k : nat) :
  agg_ok m (new_Node DIM p d k).
Proof.
  constructor; intros j c Hj; exfalso; eapply childs_new_Node; exact Hj.
Qed.

Lemma agg_ok_set_data m node (d : Z) :
  agg_ok m node -> agg_ok m (set_data node d).
Proof. intros H. inversion H; subst. constructor; assumption. Qed.

Lemma agg_ok_child m node i c :
  agg_ok m node -> child node i = Some c ->
  (depth c + 1 < m -> data c = child_sum (childs c)) /\ agg_ok m c.
Proof.
  intros H E. apply child_Some in E. inversion H as [n H1 H2]; subst.
  split; [exact (H1 _ _ E) | exact (H2 _ _ E)].
Qed.

(** One insertion keeps the sums and adds its value to the sum of the
    children of every node it goes through. *)
Lemma insert_node_agg fuel t node (pos : PosType) (v : Z) r :
  DIM <= 30 ->
  slots_ok DIM node ->
  depth_ok (max_depth_ t) node ->
  agg_ok (max_depth_ t) node ->
  insert_node DIM (update_default Z.add) fuel t node pos v = Some r ->
  agg_ok (max_depth_ t) r /\
  (depth node + 1 <> max_depth_ t ->
   child_sum (childs r) = (child_sum (childs node) + v)%Z).
Proof.
  intros HD. revert node r.
  induction fuel as [|fuel IH]; intros node r Hs Hok Hagg E; [discriminate|].
  rewrite insert_node_S in E.
  destruct (Nat.eqb_spec (depth node + 1) (max_depth_ t)) as [Em|Hne].
  - inversion E; subst r. split; [assumption | contradiction].
  - destruct (insert_node DIM (update_default Z.add) fuel t
                (next_cell DIM (update_default Z.add) t node pos v) pos v)
      as [c'|] eqn:Ec; [|discriminate].
    inversion E; subst r; clear E.
    pose proof (find_index_slot DIM pos node HD) as Hslot.
    rewrite <- (slots_ok_length DIM _ Hs) in Hslot.
    destruct (next_cell_depth_ok DIM (update_default Z.add) t node pos v Hok)
      as [Hokc Hdc].
    pose proof (next_cell_slots_ok DIM (update_default Z.add) t node pos v Hs)
      as Hsc.
    destruct (insert_node_same DIM (update_default Z.add) _ _ _ _ _ _ Ec)
      as (Hdata' & _ & Hdepth').
    (* the cell before the recursive call *)
    assert (agg_ok (max_depth_ t)
                   (next_cell DIM (update_default Z.add) t node pos v) /\
            (depth (next_cell DIM (update_default Z.add) t node pos v) + 1
               < max_depth_ t ->
             data (next_cell DIM (update_default Z.add) t node pos v) =
             (child_sum
                (childs (next_cell DIM (update_default Z.add) t node pos v))
              + v)%Z) /\
            exists old,
              childs node !! Z.to_nat (find_index DIM pos node) = Some old /\
              data (next_cell DIM (update_default Z.add) t node pos v) =
              (match old with Some c0 => data c0 | None => 0 end + v)%Z)
      as (Haggc & Hsumc & old & Hold & Hdataold).
    { unfold next_cell in *.
      destruct (child node (find_index DIM pos node)) as [c0|] eqn:E0.
      - destruct (agg_ok_child _ _ _ _ Hagg E0) as [Hsum0 Hagg0].
        split; [now apply agg_ok_set_data|]. split.
        + simpl. intros Hlt. unfold update_default.
          rewrite (Hsum0 Hlt). lia.
        + exists (Some c0). apply child_Some in E0.
          split; [exact E0|]. simpl. unfold update_default. lia.
      - split; [apply agg_ok_new_Node|]. split.
        + simpl. intros _. rewrite child_sum_replicate. lia.
        + apply lookup_lt_is_Some in Hslot. destruct Hslot as [old Hold].
          exists old. split; [exact Hold|].
          unfold child in E0. rewrite Hold in E0.
          destruct old as [c0|]; [discriminate | simpl; lia]. }
    destruct (IH _ _ Hsc Hokc Haggc Ec) as [Hagg' Hsum'].
    split.
    + inversion Hagg as [n H1 H2]; subst. constructor.
      * intros k x Hk Hlt. apply childs_set_child_Some in Hk.
        destruct Hk as [[-> ->]|Hk]; [|exact (H1 _ _ Hk Hlt)].
        rewrite Hdata', Hsum' by lia.
        apply Hsumc. lia.
      * intros k x Hk. apply childs_set_child_Some in Hk.
        destruct Hk as [[-> ->]|Hk]; [exact Hagg' | exact (H2 _ _ Hk)].
    + intros _. simpl.
      rewrite (child_sum_insert _ _ old c' Hold). rewrite Hdata', Hdataold.
      lia.
Qed.

(** The invariants of a tree of integer data under the default sum. *)
Lemma insert_all_agg l :
  forall t fuel t',
  DIM <= 30 ->
  slots_ok DIM (root_ t) ->
  tree_depth_ok t ->
  agg_ok (max_depth_ t) (root_ t) ->
  insert_all DIM (update_default Z.add) fuel t l = Some t' ->
  agg_ok (max_depth_ t) (root_ t') /\
  (2 <= max_depth_ t ->
   child_sum (childs (root_ t')) =
   (child_sum (childs (root_ t)) + total_in DIM (boundary_ t) l)%Z).
Proof.
  induction l as [|[p v] l IH]; intros t fuel t' HD Hs Hok Hagg E; simpl in E.
  - inversion E; subst. split; [assumption|]. intros _. simpl. lia.
  - destruct (insert DIM (update_default Z.add) fuel t p v) as [t1|] eqn:E1;
      [|discriminate].
    destruct (insert_keeps DIM _ _ _ _ _ _ E1) as [Hb1 Hm1].
    pose proof (insert_slots_ok DIM _ _ _ _ _ _ Hs E1) as Hs1.
    pose proof (insert_depth_ok DIM _ _ _ _ _ _ Hok E1) as Hok1.
    assert (agg_ok (max_depth_ t) (root_ t1) /\
            (2 <= max_depth_ t ->
             child_sum (childs (root_ t1)) =
             (child_sum (childs (root_ t))
              + (if Boundary.is_in DIM (boundary_ t) p then v else 0))%Z))
      as [Hagg1 Hsum1].
    { unfold insert in E1.
      destruct (Boundary.is_in DIM (boundary_ t) p); cbn [negb] in E1.
      - destruct (insert_node DIM (update_default Z.add) fuel t (root_ t) p v)
          as [r|] eqn:Er; [|discriminate].
        inversion E1; subst t1. simpl. destruct Hok as [H0 Hok].
        destruct (insert_node_agg _ _ _ _ _ _ HD Hs Hok Hagg Er)
          as [Ha Hsum].
        split; [exact Ha|]. intros H2. apply Hsum. lia.
      - inversion E1; subst t1. split; [assumption|]. intros _. lia. }
    rewrite <- Hm1 in Hagg1.
    destruct (IH t1 fuel t' HD Hs1 Hok1 Hagg1 E) as [Hagg' Hsum'].
    rewrite Hm1 in Hagg', Hsum'. split; [exact Hagg'|].
    intros H2. rewrite (Hsum' H2), (Hsum1 H2), Hb1. simpl. lia.
Qed.

Lemma node_at_agg m node (path : list Z) n :
  agg_ok m node ->
  node_at node path = Some n ->
  path <> [] ->
  depth n + 1 < m ->
  data n = child_sum (childs n).
Proof.
  revert node. induction path as [|i path IH]; intros node Hagg E Hne Hlt;
    [contradiction|].
  simpl in E. destruct (child node i) as [c|] eqn:Ec; [|discriminate].
  destruct (agg_ok_child _ _ _ _ Hagg Ec) as [Hsum Haggc].
  destruct path as [|j path].
  - simpl in E. inversion E; subst n. now apply Hsum.
  - apply (IH c); [assumption | exact E | discriminate | assumption].
Qed.

End Sums.





(** ** The order of insertions *)

Section Commute.

Context (DIM : nat) {DataType : Type}
        (update : DataType -> DataType -> DataType).

Implicit Types (node c r : Node DataType) (t : Tree DataType).

Lemma progress_stop f t node (p : PosType) (v : DataType) :
  depth node + 1 = max_depth_ t ->
  insert_node_progress DIM update f t node p v = node.
Proof.
  intros E. destruct f as [|f]; simpl; [reflexivity|].
  apply Nat.eqb_eq in E. now rewrite E.
Qed.

Lemma progress_step f t node (p : PosType) (v : DataType) :
  depth node + 1 <> max_depth_ t ->
  insert_node_progress DIM update (S f) t node p v =
  set_child node (find_index DIM p node)
    (insert_node_progress DIM update f t
       (next_cell DIM update t node p v) p v).
Proof.
  intros E. simpl. apply Nat.eqb_neq in E. now rewrite E.
Qed.

Lemma progress_same f t node (p : PosType) (v : DataType) :
  data (insert_node_progress DIM update f t node p v) = data node /\
  center (insert_node_progress DIM update f t node p v) = center node /\
  depth (insert_node_progress DIM update f t node p v) = depth node.
Proof.
  destruct f as [|f]; simpl; [auto|].
  destruct (depth node + 1 =? max_depth_ t); simpl; auto.
Qed.

(** [insert] does not read the data of the node it is called on. *)
Lemma progress_set_data f t node (p : PosType) (v x : DataType) :
  insert_node_progress DIM update f t (set_data node x) p v =
  set_data (insert_node_progress DIM update f t node p v) x.
Proof.
  destruct f as [|f]; simpl; [reflexivity|].
  destruct (depth node + 1 =? max_depth_ t); reflexivity.
Qed.

Lemma progress_tree f t t' node (p : PosType) (v : DataType) :
  boundary_ t = boundary_ t' -> max_depth_ t = max_depth_ t' ->
  insert_node_progress DIM update f t node p v =
  insert_node_progress DIM update f t' node p v.
Proof.
  intros Eb Em. revert node. induction f as [|f IH]; intros node; simpl.
  - reflexivity.
  - rewrite Em. destruct (depth node + 1 =? max_depth_ t'); [reflexivity|].
    unfold next_cell.
    rewrite (find_center_cong DIM t t' p node node Eb eq_refl eq_refl).
    now rewrite IH.
Qed.

(** Two insertions commute when the combination of values does. *)
Lemma progress_commute f t node (p q : PosType) (v w : DataType) :
  DIM <= 30 ->
  (forall d a b, update (update d a) b = update (update d b) a) ->
  (forall a b, update a b = update b a) ->
  slots_ok DIM node ->
  insert_node_progress DIM update f t
    (insert_node_progress DIM update f t node p v) q w =
  insert_node_progress DIM update f t
    (insert_node_progress DIM update f t node q w) p v.
Proof.
  intros HD U1 U2. revert node.
  induction f as [|f IH]; intros node Hs; [reflexivity|].
  destruct (Nat.eq_dec (depth node + 1) (max_depth_ t)) as [Em|Hne].
  - rewrite !(progress_stop (S f) t node) by assumption. reflexivity.
  - rewrite (progress_step f t node p v Hne).
    rewrite (progress_step f t node q w Hne).
    rewrite !progress_step by exact Hne.
    change (find_index DIM q (set_child node (find_index DIM p node) _))
      with (find_index DIM q node).
    change (find_index DIM p (set_child node (find_index DIM q node) _))
      with (find_index DIM p node).
    set (ip := find_index DIM p node).
    set (iq := find_index DIM q node).
    set (Xp := insert_node_progress DIM update f t
                 (next_cell DIM update t node p v) p v).
    set (Xq := insert_node_progress DIM update f t
                 (next_cell DIM update t node q w) q w).
    destruct (Nat.eq_dec (Z.to_nat ip) (Z.to_nat iq)) as [Eidx|Hdiff].
    + (* the same slot *)
      assert (ip = iq) as Ei.
      { pose proof (find_index_range DIM p node HD).
        pose proof (find_index_range DIM q node HD).
        apply Z2Nat.inj; subst ip iq; lia. }
      assert (find_center DIM t p node = find_center DIM t q node) as Efc
        by (now apply find_center_same_index).
      assert (Z.to_nat ip < length (childs node)) as Hin.
      { rewrite (slots_ok_length DIM _ Hs). now apply find_index_slot. }
      assert (child node iq = child node ip) as Eci by now rewrite Ei.
      assert (next_cell DIM update t (set_child node ip Xp) q w =
              set_data Xp (update (data Xp) w)) as Hn1.
      { unfold next_cell.
        change (find_index DIM q (set_child node ip Xp)) with iq.
        rewrite <- Ei. now rewrite child_set_child_eq. }
      assert (next_cell DIM update t (set_child node iq Xq) p v =
              set_data Xq (update (data Xq) v)) as Hn2.
      { unfold next_cell.
        change (find_index DIM p (set_child node iq Xq)) with ip.
        rewrite <- Ei. now rewrite child_set_child_eq. }
      rewrite Hn1, Hn2, !progress_set_data. rewrite <- Ei.
      assert (set_data (insert_node_progress DIM update f t Xp q w)
                       (update (data Xp) w) =
              set_data (insert_node_progress DIM update f t Xq p v)
                       (update (data Xq) v)) as Hinner.
      { unfold Xp, Xq, next_cell.
        change (find_index DIM p node) with ip.
        change (find_index DIM q node) with iq.
        rewrite Eci.
        destruct (child node ip) as [c0|] eqn:E0.
        - rewrite !progress_set_data. simpl.
          rewrite (IH c0) by (eapply slots_ok_child; eassumption).
          unfold set_data. simpl. f_equal. apply U1.
        - rewrite <- Efc.
          change (new_Node DIM (find_center DIM t p node) v (depth node + 1))
            with (set_data (new_Node DIM (find_center DIM t p node) w
                                     (depth node + 1)) v).
          rewrite !progress_set_data. simpl.
          rewrite (IH (new_Node DIM (find_center DIM t p node) w
                                (depth node + 1)))
            by apply slots_ok_new_Node.
          destruct (progress_same f t
                      (new_Node DIM (find_center DIM t p node) w
                                (depth node + 1)) q w) as (Hd & _ & _).
          unfold set_data. simpl. f_equal. rewrite Hd. simpl. apply U2. }
      rewrite Hinner. unfold set_child. simpl.
      now rewrite !list_insert_insert_eq.
    + (* two slots *)
      assert (next_cell DIM update t (set_child node ip Xp) q w =
              next_cell DIM update t node q w) as Enq.
      { unfold next_cell.
        change (find_index DIM q (set_child node ip Xp)) with iq.
        now rewrite child_set_child_ne by assumption. }
      assert (next_cell DIM update t (set_child node iq Xq) p v =
              next_cell DIM update t node p v) as Enp.
      { unfold next_cell.
        change (find_index DIM p (set_child node iq Xq)) with ip.
        rewrite child_set_child_ne; [reflexivity | congruence]. }
      rewrite Enq, Enp. fold Xp Xq.
      unfold set_child. simpl. f_equal.
      rewrite list_insert_insert.
      destruct (decide (Z.to_nat iq = Z.to_nat ip)); [congruence|].
      reflexivity.
Qed.

(** Two calls of [insert] in either order. *)
Lemma insert_swap t fuel (p q : PosType) (v w : DataType) :
  DIM <= 30 ->
  (forall d a b, update (update d a) b = update (update d b) a) ->
  (forall a b, update a b = update b a) ->
  slots_ok DIM (root_ t) ->
  tree_depth_ok t ->
  1 <= max_depth_ t -> max_depth_ t <= fuel ->
  insert_all DIM update fuel t [(p, v); (q, w)] =
  insert_all DIM update fuel t [(q, w); (p, v)].
Proof.
  intros HD U1 U2 Hs Hok H1 Hf.
  destruct (insert_all_total DIM update [(p, v); (q, w)] fuel t Hok H1 Hf)
    as [t12 E12].
  destruct (insert_all_total DIM update [(q, w); (p, v)] fuel t Hok H1 Hf)
    as [t21 E21].
  rewrite E12, E21. f_equal.
  simpl in E12, E21. unfold insert in E12, E21.
  destruct (Boundary.is_in DIM (boundary_ t) p) eqn:Bp;
    destruct (Boundary.is_in DIM (boundary_ t) q) eqn:Bq;
    cbn [negb] in E12, E21.
  - destruct (insert_node DIM update fuel t (root_ t) p v) as [rp|] eqn:Ep;
      [|discriminate].
    destruct (insert_node DIM update fuel t (root_ t) q w) as [rq|] eqn:Eq;
      [|discriminate].
    cbn [boundary_ max_depth_ root_] in E12, E21.
    rewrite Bq in E12. rewrite Bp in E21. cbn [negb] in E12, E21.
    destruct (insert_node DIM update fuel _ rp q w) as [rpq|] eqn:Epq;
      [|discriminate].
    destruct (insert_node DIM update fuel _ rq p v) as [rqp|] eqn:Eqp;
      [|discriminate].
    inversion E12; inversion E21; subst. simpl. f_equal.
    apply insert_node_progress_done in Ep, Eq, Epq, Eqp.
    rewrite <- Epq, <- Eqp, <- Ep, <- Eq.
    rewrite (progress_tree fuel
               {| boundary_ := boundary_ t; max_depth_ := max_depth_ t;
                  root_ := insert_node_progress DIM update fuel t
                             (root_ t) p v |} t _ q w eq_refl eq_refl).
    rewrite (progress_tree fuel
               {| boundary_ := boundary_ t; max_depth_ := max_depth_ t;
                  root_ := insert_node_progress DIM update fuel t
                             (root_ t) q w |} t _ p v eq_refl eq_refl).
    now apply progress_commute.
  - destruct (insert_node DIM update fuel t (root_ t) p v) as [rp|] eqn:Ep;
      [|discriminate].
    cbn [boundary_ max_depth_ root_] in E12.
    rewrite Bq in E12. rewrite Bp in E21. cbn [negb] in E12, E21.
    congruence.
  - destruct (insert_node DIM update fuel t (root_ t) q w) as [rq|] eqn:Eq;
      [|discriminate].
    cbn [boundary_ max_depth_ root_] in E21.
    rewrite Bq in E12. rewrite Bp in E21. cbn [negb] in E12, E21.
    congruence.
  - rewrite Bq in E12. rewrite Bp in E21. cbn [negb] in E12, E21.
    congruence.
Qed.

Lemma insert_all_permutation (l l' : list (PosType * DataType)) :
  DIM <= 30 ->
  (forall d a b, update (update d a) b = update (update d b) a) ->
  (forall a b, update a b = update b a) ->
  Permutation l l' ->
  forall t fuel,
    slots_ok DIM (root_ t) ->
    tree_depth_ok t ->
    1 <= max_depth_ t -> max_depth_ t <= fuel ->
    insert_all DIM update fuel t l = insert_all DIM update fuel t l'.
Proof.
  intros HD U1 U2 Hperm.
  induction Hperm as [|[p v] l l' _ IH|[p v] [q w] l|l l' l'' _ IH1 _ IH2];
    intros t fuel Hs Hok H1 Hf.
  - reflexivity.
  - simpl. destruct (insert DIM update fuel t p v) as [t1|] eqn:E1;
      [|reflexivity].
    destruct (insert_keeps DIM update _ _ _ _ _ E1) as [_ Hm1].
    apply IH; [| |lia|lia].
    + eapply insert_slots_ok; eassumption.
    + eapply insert_depth_ok; eassumption.
  - pose proof (insert_swap t fuel q p w v HD U1 U2 Hs Hok H1 Hf) as Hswap.
    simpl in Hswap. simpl.
    destruct (insert DIM update fuel t q w) as [tq|];
      destruct (insert DIM update fuel t p v) as [tp|].
    + destruct (insert DIM update fuel tq p v) as [tqp|];
        destruct (insert DIM update fuel tp q w) as [tpq|];
        try discriminate; [|reflexivity].
      inversion Hswap; subst. reflexivity.
    + destruct (insert DIM update fuel tq p v); [discriminate | reflexivity].
    + destruct (insert DIM update fuel tp q w); [discriminate | reflexivity].
    + reflexivity.
  - rewrite (IH1 t fuel) by assumption. now apply IH2.
Qed.

End Commute.

(** X11.  When the combination of values is commutative, both on two values and
    as an action on the data, the tree built from a list of insertions into
    a new tree with [max_depth >= 1] does not depend on the order of the
    list. *)
Theorem insert_order_irrelevant
  (DIM : nat) (DataType : Type) (DataType_default : DataType)
  (update : DataType -> DataType -> DataType)
  (pmin pmax : PosType) (m fuel : nat) (l l' : list (PosType * DataType)) :
  DIM <= 30 ->
  (forall d a b, update (update d a) b = update (update d b) a) ->
  (forall a b, update a b = update b a) ->
  1 <= m -> m <= fuel ->
  Permutation l l' ->
  insert_all DIM update fuel (Octree DIM DataType_default pmin pmax m) l =
  insert_all DIM update fuel (Octree DIM DataType_default pmin pmax m) l'.
Proof.
  intros HD U1 U2 H1 Hf Hperm.
  apply (insert_all_permutation DIM update l l' HD U1 U2 Hperm).
  - apply Octree_slots_ok.
  - apply Octree_depth_ok.
  - simpl. lia.
  - simpl. lia.
Qed.

Lemma insert_order_irrelevant_witness :
  insert_all Demo.DIM Demo.sum 4 Demo.quadtree
             [(Demo.p25, 1%Z); (Demo.p3070, 5%Z)] =
  insert_all Demo.DIM Demo.sum 4 Demo.quadtree
             [(Demo.p3070, 5%Z); (Demo.p25, 1%Z)].
Proof.
  apply (insert_order_irrelevant Demo.DIM Z 0%Z Demo.sum
           Demo.pmin Demo.pmax 4 4).
  - unfold Demo.DIM. lia.
  - intros d a b. unfold Demo.sum, update_default. lia.
  - intros a b. unfold Demo.sum, update_default. lia.
  - lia.
  - lia.
  - apply perm_swap.
Defined.

(** ** [visual] *)

Section Visual.

Context {DataType : Type}.

Implicit Types (node c x : Node DataType).

Lemma traverse_loop_None {St : Type} (func : Node DataType -> St -> St)
      fuel (slots : list (option (Node DataType))) :
  fold_left
    (fun acc slot =>
       match acc, slot with
       | Some s0, Some c => traverse func fuel c s0
       | _, _ => acc
       end)
    slots None = None.
Proof. induction slots as [|slot slots IH]; simpl; [reflexivity | exact IH]. Qed.

Lemma In_slot (slots : list (option (Node DataType))) c :
  In (Some c) slots <-> exists k, slots !! k = Some (Some c).
Proof. rewrite <- list_elem_of_In. apply list_elem_of_lookup. Qed.

(** What one call of [traverse] does, for the recording callback and for
    any other: the nodes visited are the node itself, first, and then the
    nodes below it; every callback is folded over the same sequence. *)
Lemma traverse_visits fuel :
  forall node (l0 l1 : list (Node DataType)),
  traverse record_node fuel node l0 = Some l1 ->
  exists ns,
    l1 = l0 ++ node :: ns /\
    (forall (St : Type) (func : Node DataType -> St -> St) (s : St),
        traverse func fuel node s =
        Some (fold_left (fun s0 n => func n s0) (node :: ns) s)) /\
    (forall x, In x (node :: ns) <-> exists path, node_at node path = Some x).
Proof.
  induction fuel as [|fuel IH]; intros node l0 l1 E; [discriminate|].
  simpl in E.
  assert (forall (slots : list (option (Node DataType))) l2 l3,
             fold_left
               (fun acc slot =>
                  match acc, slot with
                  | Some s0, Some c => traverse record_node fuel c s0
                  | _, _ => acc
                  end)
               slots (Some l2) = Some l3 ->
             exists ns,
               l3 = l2 ++ ns /\
               (forall (St : Type) (func : Node DataType -> St -> St) (s : St),
                   fold_left
                     (fun acc slot =>
                        match acc, slot with
                        | Some s0, Some c => traverse func fuel c s0
                        | _, _ => acc
                        end)
                     slots (Some s) =
                   Some (fold_left (fun s0 n => func n s0) ns s)) /\
               (forall x, In x ns <->
                          exists c path,
                            In (Some c) slots /\ node_at c path = Some x))
    as Hloop.
  { induction slots as [|slot slots IHs]; intros l2 l3 E2; simpl in E2.
    - inversion E2; subst. exists []. split; [now rewrite app_nil_r|].
      split; [reflexivity|].
      intros x. split; [intros [] | intros (c & path & [] & _)].
    - destruct slot as [c|].
      + destruct (traverse record_node fuel c l2) as [l2'|] eqn:Ec;
          [|now rewrite traverse_loop_None in E2].
        destruct (IH c l2 l2' Ec) as (nc & -> & Hfc & Hinc).
        destruct (IHs _ _ E2) as (ns & -> & Hfs & Hins).
        exists ((c :: nc) ++ ns). split; [now rewrite <- app_assoc|].
        split.
        * intros St func s. simpl fold_left at 1. rewrite Hfc, Hfs.
          now rewrite (fold_left_app _ (c :: nc) ns).
        * intros x. rewrite in_app_iff, Hinc, Hins. split.
          -- intros [(path & Hp)|(c' & path & Hc' & Hp)].
             ++ exists c, path. split; [now left | exact Hp].
             ++ exists c', path. split; [now right | exact Hp].
          -- intros (c' & path & [Heq|Hc'] & Hp).
             ++ inversion Heq; subst c'. left. now exists path.
             ++ right. now exists c', path.
      + destruct (IHs _ _ E2) as (ns & -> & Hfs & Hins).
        exists ns. split; [reflexivity|]. split.
        * intros St func s. simpl. apply Hfs.
        * intros x. rewrite Hins. split.
          -- intros (c' & path & Hc' & Hp). exists c', path.
             split; [now right | exact Hp].
          -- intros (c' & path & [Heq|Hc'] & Hp); [discriminate|].
             now exists c', path. }
  destruct (Hloop _ _ _ E) as (ns & -> & Hf & Hin).
  exists ns. split; [unfold record_node; now rewrite <- app_assoc|].
  split.
  - intros St func s. simpl. apply Hf.
  - intros x. simpl. rewrite Hin. split.
    + intros [<-|(c & path & Hc & Hp)].
      * now exists [].
      * apply In_slot in Hc. destruct Hc as [k Hk].
        exists (Z.of_nat k :: path). simpl.
        replace (child node (Z.of_nat k)) with (Some c); [exact Hp|].
        symmetry. apply child_Some. now rewrite Nat2Z.id.
    + intros (path & Hp). destruct path as [|i path].
      * simpl in Hp. inversion Hp. now left.
      * simpl in Hp. destruct (child node i) as [c|] eqn:Ei; [|discriminate].
        right. exists c, path. split; [|exact Hp].
        apply In_slot. exists (Z.to_nat i). now apply child_Some.
Qed.

End Visual.

(** X12.  When [visual] returns, the nodes it calls the callback on are exactly
    the nodes of the tree, the root first, and the sequence does not depend
    on the callback: any callback is folded over the nodes that the
    recording callback lists. *)
Theorem visual_visits_the_nodes
  (DataType : Type) (fuel : nat) (t : Tree DataType)
  (ns : list (Node DataType)) :
  visual record_node fuel t [] = Some ns ->
  (exists rest, ns = root_ t :: rest) /\
  (forall x, In x ns <-> exists path, node_at (root_ t) path = Some x) /\
  (forall (St : Type) (func : Node DataType -> St -> St) (s : St),
      visual func fuel t s = Some (fold_left (fun s0 n => func n s0) ns s)).
Proof.
  unfold visual. intros E.
  destruct (traverse_visits fuel (root_ t) [] ns E) as (rest & -> & Hf & Hin).
  split; [now exists rest|]. split; [exact Hin | exact Hf].
Qed.

Lemma visual_visits_the_nodes_witness :
  exists t ns,
    insert_all Demo.DIM Demo.sum 4 Demo.quadtree Demo.three = Some t /\
    visual record_node 4 t [] = Some ns /\
    (exists rest, ns = root_ t :: rest) /\
    (forall x, In x ns <-> exists path, node_at (root_ t) path = Some x) /\
    (forall (St : Type) (func : Node Z -> St -> St) (s : St),
        visual func 4 t s = Some (fold_left (fun s0 n => func n s0) ns s)).
Proof.
  run_closed (insert_all Demo.DIM Demo.sum 4 Demo.quadtree Demo.three) t E.
  destruct (visual record_node 4 t []) as [ns|] eqn:Ev;
    [|reveal E t; vm_compute in Ev; discriminate].
  exists t, ns. split; [reflexivity|]. split; [exact Ev|].
  exact (visual_visits_the_nodes Z 4 t ns Ev).
Defined.

(** ** [Boundary::is_in], both answers *)

Lemma is_in_from_false (b : Boundary.t) (pos : PosType) (n i : nat) :
  Boundary.is_in_from b pos i n = false ->
  exists j, i <= j < i + n /\
    ((at_ pos j < at_ (Boundary.min b) j)%Q \/
     (at_ (Boundary.max b) j < at_ pos j)%Q).
Proof.
  revert i. induction n as [|n IH]; intros i E; simpl in E; [discriminate|].
  destruct (Qltb (at_ pos i) (at_ (Boundary.min b) i)) eqn:E1; simpl in E.
  - apply Qltb_true in E1. exists i. split; [lia | now left].
  - destruct (Qgtb (at_ pos i) (at_ (Boundary.max b) i)) eqn:E2.
    + apply Qgtb_true in E2. exists i. split; [lia | now right].
    + destruct (IH (S i) E) as (j & Hj & Hout).
      exists j. split; [lia | exact Hout].
Qed.


(** ** [find] and the regions *)

Section FindRegion.

Context (DIM : nat) {DataType : Type}.

Implicit Types (node c n : Node DataType) (t : Tree DataType).

Lemma same_region_in (a b : Boundary.t) (pos : PosType) :
  same_region DIM a b -> In_region DIM b pos -> In_region DIM a pos.
Proof.
  intros Hs Hin i Hi. destruct (Hs i Hi) as [E1 E2].
  destruct (Hin i Hi) as [H1 H2]. split; lra.
Qed.

(** Indexing on a position never leaves the regions that contain it. *)
Lemma descend_region t m node (pos : PosType) k n :
  DIM <= 30 -> m <= 30 ->
  DIM <= length (Boundary.size (boundary_ t)) ->
  geom_ok DIM t node ->
  depth_ok m node ->
  In_region DIM (find_boundary t node) pos ->
  descend DIM node pos k = Some n ->
  In_region DIM (find_boundary t n) pos.
Proof.
  intros HD Hm Hls. revert node.
  induction k as [|k IH]; intros node Hg Hd Hin E; simpl in E.
  - now inversion E; subst.
  - destruct (child node (find_index DIM pos node)) as [c|] eqn:Ec;
      [|discriminate].
    destruct (child_is_cell DIM t node pos c HD Hg Ec) as [Hctr Hdc].
    destruct (depth_ok_child _ _ _ _ Hd Ec) as (_ & Hlt & Hdokc).
    destruct (geom_ok_child DIM _ _ _ _ Hg Ec) as [_ Hgc].
    apply (IH c Hgc Hdokc); [|exact E].
    apply (parent_in_cell DIM t node c pos); try assumption; [lia|].
    now apply geom_ok_length with t.
Qed.

End FindRegion.



(** ** The region of a node and its centre *)



(** ** Degenerate constructions *)





(** X6.  On a new tree constructed with [max_depth = 0], [insert] of a position
    inside the boundary does not return, whatever the boundary, the
    position, the value and the number of nested calls allowed. *)
Theorem insert_max_depth_0_never_returns
  (DIM : nat) (DataType : Type) (DataType_default : DataType)
  (update : DataType -> DataType -> DataType)
  (pmin pmax pos : PosType) (d : DataType) (fuel : nat) :
  Boundary.is_in DIM (Boundary.Build pmin pmax) pos = true ->
  insert DIM update fuel (Octree DIM DataType_default pmin pmax 0) pos d
  = None.
Proof.
  intros Hb. unfold insert. simpl boundary_. rewrite Hb. cbn [negb].
  rewrite (insert_node_overrun DIM update); [reflexivity | |simpl; lia].
  apply (Octree_depth_ok DIM DataType_default pmin pmax 0).
Qed.

Lemma insert_max_depth_0_never_returns_witness :
  Boundary.is_in Demo.DIM (Boundary.Build Demo.pmin Demo.pmax) Demo.p3070
    = true /\
  insert Demo.DIM Demo.sum 100 (Octree Demo.DIM 0%Z Demo.pmin Demo.pmax 0)
         Demo.p3070 1%Z = None.
Proof.
  assert (Boundary.is_in Demo.DIM (Boundary.Build Demo.pmin Demo.pmax)
                         Demo.p3070 = true) as H by reflexivity.
  split; [exact H|].
  exact (insert_max_depth_0_never_returns Demo.DIM Z 0%Z Demo.sum
           Demo.pmin Demo.pmax Demo.p3070 1%Z 100 H).
Defined.
